(** * Zapiet draft carry-over: the order-creation webhook

    A shallow embedding of [api/orders-create.js] and the properties of its
    attribute merge and of its request pipeline.

    The file holds two revisions of the same handler.  Their helpers
    ([timingSafeEqual], [mergeNoteAttributes], [differs]) are identical; the
    second revision adds a tag filter after the order fetch.  The helpers are
    embedded once, the two handlers separately ([RevA.handler],
    [RevB.handler]).

    Data follows the remote interface: attribute names, attribute values and
    tags are strings that may be absent or null; an element of an attribute
    array may be null; identifiers are numbers or strings that may be absent,
    null or false.  Strings are byte strings (UTF-8).  A handler is a
    function of the request and of the world it runs in, and yields its
    reply together with the outbound calls it issued, in order.

    [RevA.handler] and [RevB.handler] are the runs in which every awaited
    call answers.  [RevA_net.handler] and [RevB_net.handler] are the same
    handlers with awaited calls that may reject (a request stream that
    errors, a fetch that rejects, an answer that carries no document): such
    a run ends with no reply.  Attribute values that are numbers or booleans
    are covered by a second embedding of the merge,
    [mergeNoteAttributes_any].

    Outside the model: remote documents that do not have the shape of the
    interface, and the lines written to the console. *)

From stdpp Require Import gmap strings list fin_maps.
From Stdlib Require Import ZArith Ascii.

Open Scope string_scope.

(** ** JavaScript values *)

(** A nullable string: a property that is absent ([Undefined]), [null], or a
    string. *)
Inductive field :=
  | Undefined
  | Null
  | Str (s : string).

#[global] Instance field_eq_dec : EqDecision field.
Proof. solve_decision. Defined.

(** The value of an identifier property: absent, [null], a boolean, an
    integer or a string. *)
Inductive ident :=
  | IdUndefined
  | IdNull
  | IdBool (b : bool)
  | IdNum (z : Z)
  | IdStr (s : string).

#[global] Instance ident_eq_dec : EqDecision ident.
Proof. solve_decision. Defined.

(** JavaScript truthiness: the empty string and zero are falsy, like the
    nullish values. *)
Definition truthy (v : field) : bool :=
  match v with
  | Str s => negb (String.eqb s "")
  | _ => false
  end.

Definition truthy_id (v : ident) : bool :=
  match v with
  | IdBool b => b
  | IdNum z => negb (Z.eqb z 0)
  | IdStr s => negb (String.eqb s "")
  | _ => false
  end.

(** [v ?? ""] *)
Definition or_empty (v : field) : field :=
  match v with
  | Str s => Str s
  | _ => Str ""
  end.

(** ** Note attributes *)

Record attr := Attr { name : field; value : field }.

#[global] Instance attr_eq_dec : EqDecision attr.
Proof. solve_decision. Defined.

(** An element of a [note_attributes] array: an attribute object, or [None]
    for a [null] element. *)
Abbreviation entry := (option attr).

(** [a?.name] *)
Definition opt_name (a : entry) : field :=
  match a with
  | Some x => name x
  | None => Undefined
  end.

(** The key under which [a] takes part in the merge: [a.name] when
    [a?.name] is truthy. *)
Definition key_of (a : entry) : option string :=
  match opt_name a with
  | Str s => if truthy (Str s) then Some s else None
  | _ => None
  end.

(** [a.value], read on an element that is an object. *)
Definition opt_value (a : entry) : field :=
  match a with
  | Some x => value x
  | None => Undefined
  end.

(** [{ name: a.name, value: a.value ?? "" }] *)
Definition new_object (a : entry) : entry :=
  Some {| name := opt_name a; value := or_empty (opt_value a) |}.

(** [out.forEach((a, i) => a?.name && idx.set(a.name, i))], from index [i]
    on. *)
Fixpoint forEach_set (i : nat) (out : list entry) (idx : gmap string nat)
  : gmap string nat :=
  match out with
  | [] => idx
  | a :: rest =>
      forEach_set (S i) rest
        (match key_of a with
         | Some n => <[n := i]> idx
         | None => idx
         end)
  end.

(** The body of the loop over [incoming]: skip an element with no name,
    push when the name has no index, assign in place otherwise.  [idx] is
    never updated by the loop.  An index stored in [idx] is below the length
    of [out] ([index_in_range]), so the assignment [out[i] = ...] never
    extends the array and is the in-range list update. *)
Definition upsert (idx : gmap string nat) (out : list entry) (a : entry)
  : list entry :=
  match key_of a with
  | None => out
  | Some n =>
      match idx !! n with
      | None => out ++ [new_object a]
      | Some i => <[i := new_object a]> out
      end
  end.

Definition mergeNoteAttributes (existing incoming : list entry) : list entry :=
  let out := existing in
  let idx := forEach_set 0 out ∅ in
  foldl (upsert idx) out incoming.

(** The allow-list of the handler, and its filter
    [.filter(a => wanted.has(a?.name))]. *)
Definition wanted : gset string :=
  {[ "Delivery-Location-Id"; "Delivery-Date"; "Checkout-Method" ]}.

Definition wanted_has (v : field) : bool :=
  match v with
  | Str s => bool_decide (s ∈ wanted)
  | _ => false
  end.

Definition filter_wanted (l : list entry) : list entry :=
  filter (λ a, wanted_has (opt_name a) = true) l.

(** ** Reading the merge off the lists *)

(** The position of the last element of [l] keyed [n]. *)
Fixpoint last_pos (n : string) (l : list entry) : option nat :=
  match l with
  | [] => None
  | a :: l' =>
      match last_pos n l' with
      | Some k => Some (S k)
      | None => if decide (key_of a = Some n) then Some 0 else None
      end
  end.

(** The last element of [l] keyed [n]. *)
Fixpoint last_entry (n : string) (l : list entry) : option entry :=
  match l with
  | [] => None
  | a :: l' =>
      match last_entry n l' with
      | Some b => Some b
      | None => if decide (key_of a = Some n) then Some a else None
      end
  end.

(** What stands in the place of [e], keyed [n], once every element of
    [incoming] keyed [n] has been assigned there. *)
Definition written (n : string) (incoming : list entry) (e : entry) : entry :=
  match last_entry n incoming with
  | Some a => new_object a
  | None => e
  end.

(** The existing elements after the merge: the last element of each name is
    written, every other element stays. *)
Fixpoint overwritten (incoming existing : list entry) : list entry :=
  match existing with
  | [] => []
  | e :: rest =>
      match key_of e with
      | Some n =>
          match last_pos n rest with
          | None => written n incoming e
          | Some _ => e
          end
      | None => e
      end :: overwritten incoming rest
  end.

(** An incoming element is new when it has a name that no existing element
    has. *)
Definition is_new (existing : list entry) (a : entry) : bool :=
  match key_of a with
  | Some n => bool_decide (last_pos n existing = None)
  | None => false
  end.

Definition appended (existing incoming : list entry) : list entry :=
  new_object <$> filter (λ a, is_new existing a = true) incoming.

(** An element has a name when [a?.name] is truthy. *)
Definition named (a : entry) : bool :=
  match key_of a with
  | Some _ => true
  | None => false
  end.

(** ** Built-ins used by the handler *)

(** [Buffer.from(s, "utf8")]: the bytes of a string. *)
Definition Buffer_from (s : string) : list ascii := String.list_ascii_of_string s.

(** Node's [crypto.timingSafeEqual] on two buffers of the same length: the
    differences of all byte pairs are accumulated and the accumulator is
    compared with zero, with no early exit. *)
Fixpoint xor_accumulate (acc : N) (ab bb : list ascii) : N :=
  match ab, bb with
  | x :: ab', y :: bb' =>
      xor_accumulate (N.lor acc (N.lxor (N_of_ascii x) (N_of_ascii y))) ab' bb'
  | _, _ => acc
  end.

Definition crypto_timingSafeEqual (ab bb : list ascii) : bool :=
  N.eqb (xor_accumulate 0 ab bb) 0.

(** [a || ""] on a string that may be undefined. *)
Definition or_empty_string (a : option string) : string := default "" a.

Definition timingSafeEqual (a b : option string) : bool :=
  let ab := Buffer_from (or_empty_string a) in
  let bb := Buffer_from (or_empty_string b) in
  if negb (Nat.eqb (length ab) (length bb)) then false
  else crypto_timingSafeEqual ab bb.

(** [!s] on a string that may be undefined. *)
Definition not_string (s : option string) : bool :=
  match s with
  | Some s => String.eqb s ""
  | None => true
  end.

(** [JSON.stringify] on a list of attributes.  A property that is undefined
    is left out; a string is quoted, with the quote, the backslash and the
    control characters escaped. *)
Definition quote_char : ascii := ascii_of_nat 34.

Definition hex_digit (n : N) : ascii :=
  if (n <? 10)%N then ascii_of_N (48 + n) else ascii_of_N (87 + n).

Definition escape_char (c : ascii) : string :=
  let n := N_of_ascii c in
  if (n =? 34)%N then String "\" (String quote_char "")
  else if (n =? 92)%N then "\\"
  else if (n =? 8)%N then "\b"
  else if (n =? 12)%N then "\f"
  else if (n =? 10)%N then "\n"
  else if (n =? 13)%N then "\r"
  else if (n =? 9)%N then "\t"
  else if (n <? 32)%N then
    "\u00" ++ String (hex_digit (n / 16)) (String (hex_digit (n mod 16)) "")
  else String c "".

Fixpoint escape (s : string) : string :=
  match s with
  | EmptyString => ""
  | String c s' => escape_char c ++ escape s'
  end.

Definition quote (s : string) : string :=
  String quote_char (escape s ++ String quote_char "").

Definition stringify_property (k : string) (v : field) : list string :=
  match v with
  | Undefined => []
  | Null => [quote k ++ ":null"]
  | Str s => [quote k ++ ":" ++ quote s]
  end.

Definition stringify_entry (a : entry) : string :=
  match a with
  | None => "null"
  | Some x =>
      "{" ++ String.concat ","
               (stringify_property "name" (name x)
                ++ stringify_property "value" (value x)) ++ "}"
  end.

Definition JSON_stringify (l : list entry) : string :=
  "[" ++ String.concat "," (stringify_entry <$> l) ++ "]".

(** [differs(a1, a2)]; both call-site arguments are arrays. *)
Definition differs (a1 a2 : list entry) : bool :=
  negb (String.eqb (JSON_stringify a1) (JSON_stringify a2)).

(** [String.prototype.toLowerCase] on the bytes of a string: the ASCII
    capitals are mapped, every other byte stays.  The marker searched for
    below is ASCII, and no non-ASCII character lower-cases to a run of
    characters that could complete it, so the containment test agrees with
    the built-in one. *)
Definition lower_char (c : ascii) : ascii :=
  let n := N_of_ascii c in
  if ((65 <=? n) && (n <=? 90))%N then ascii_of_N (n + 32) else c.

Fixpoint toLowerCase (s : string) : string :=
  match s with
  | EmptyString => ""
  | String c s' => String (lower_char c) (toLowerCase s')
  end.

(** [s.includes(marker)] *)
Fixpoint includes (s marker : string) : bool :=
  String.prefix marker s
  || match s with
     | EmptyString => false
     | String _ s' => includes s' marker
     end.

(** ** The world around the handler *)

(** A request as the handler reads it: [req.method], the header
    [x-shopify-hmac-sha256] and the raw body collected by [readRawBody]. *)
Record request := {
  method : string;
  hmac_header : option string;
  raw_body : string
}.

(** The parsed webhook body, as far as it is read: [order.id]. *)
Record event := { id : ident }.

(** [fullOrder.order] *)
Record order := {
  tags : field;
  draft_order_id : ident;
  note_attributes : option (list entry)
}.

(** [draft.draft_order] *)
Record draft_order := { draft_note_attributes : option (list entry) }.

(** A fetch response: [res.ok] and the document [await res.json()] gives. *)
Record response (T : Type) := { ok : bool; json : T }.
Arguments ok {T} _.
Arguments json {T} _.

(** What one invocation cannot decide on its own: the configured secret
    ([process.env.WEBHOOK_SECRET]), the two library functions the handler
    calls on the raw body, and the answers of the remote API.  [JSON_parse]
    is [None] when [JSON.parse] throws, and [Some None] when the body parses
    to [null] or to a value with no properties.  A document with no [order]
    (or [draft_order]) object is [None]. *)
Record world := {
  WEBHOOK_SECRET : option string;
  hmac_sha256_base64 : string → string → string;
  JSON_parse : string → option (option event);
  orders : ident → response (option order);
  draft_orders : ident → response (option draft_order);
  orders_put : ident → list entry → response unit
}.

(** The outbound calls, by method and path:
    [GET /admin/api/2025-01/orders/{id}.json],
    [GET /admin/api/2025-01/draft_orders/{id}.json] and
    [PUT /admin/api/2025-01/orders/{id}.json] with the body
    [{ order: { id, note_attributes } }]. *)
Inductive call :=
  | GET_order (orderId : ident)
  | GET_draft (draftId : ident)
  | PUT_order (orderId : ident) (merged : list entry).

(** [res.status(s).send(text)] *)
Record reply := { status : nat; text : string }.

(** An action runs against the calls issued so far and adds its own. *)
Definition Act (A : Type) : Type := list call → A * list call.

#[global] Instance Act_ret : MRet Act := λ A (a : A) calls, (a, calls).

#[global] Instance Act_bind : MBind Act :=
  λ A B (k : A → Act B) (m : Act A) calls,
    let '(a, calls') := m calls in k a calls'.

Definition issue {A : Type} (c : call) (answer : A) : Act A :=
  λ calls, (answer, (calls ++ [c])%list).

Definition send (s : nat) (t : string) : Act reply :=
  mret {| status := s; text := t |}.

Definition run {A : Type} (m : Act A) : A * list call := m [].

(** [shopifyGET] at the two paths it is called with, and [shopifyPUT]. *)
Definition shopifyGET_order (w : world) (orderId : ident)
  : Act (response (option order)) :=
  issue (GET_order orderId) (orders w orderId).

Definition shopifyGET_draft (w : world) (draftId : ident)
  : Act (response (option draft_order)) :=
  issue (GET_draft draftId) (draft_orders w draftId).

Definition shopifyPUT (w : world) (orderId : ident) (merged : list entry)
  : Act (response unit) :=
  issue (PUT_order orderId merged) (orders_put w orderId merged).

(** [order?.id] *)
Definition event_id (o : option event) : ident :=
  match o with
  | Some e => id e
  | None => IdUndefined
  end.

(** [fullOrder?.order?.draft_order_id] *)
Definition order_draft_id (o : option order) : ident :=
  match o with
  | Some x => draft_order_id x
  | None => IdUndefined
  end.

(** [fullOrder?.order?.tags || ""] *)
Definition order_tags (o : option order) : string :=
  match o with
  | Some x => match tags x with Str s => s | _ => "" end
  | None => ""
  end.

(** [fullOrder?.order?.note_attributes || []] *)
Definition order_attributes (o : option order) : list entry :=
  default [] (o ≫= note_attributes).

(** [draft?.draft_order?.note_attributes || []] *)
Definition draft_attributes (d : option draft_order) : list entry :=
  default [] (d ≫= draft_note_attributes).

(** ** The handler, first revision *)
Module RevA.

Definition handler (w : world) (req : request) : Act reply :=
  if negb (String.eqb (method req) "POST") then send 200 "OK" else
  (* 1) Verify HMAC *)
  let raw := raw_body req in
  let secret := WEBHOOK_SECRET w in
  let hmacHeader := hmac_header req in
  if not_string secret || not_string hmacHeader then
    send 401 "Missing secret or hmac"
  else
  (* secret is a non-empty string from here on *)
  let digest := hmac_sha256_base64 w (or_empty_string secret) raw in
  if negb (timingSafeEqual (Some digest) hmacHeader) then
    send 401 "Bad HMAC"
  else
  (* 2) Parse webhook *)
  match JSON_parse w raw with
  | None => send 400 "Bad JSON"
  | Some order =>
  let orderId := event_id order in
  if negb (truthy_id orderId) then send 200 "No order id" else
  (* 3) GET order *)
  oResp ← shopifyGET_order w orderId;
  if negb (ok oResp) then send 200 "GET order failed" else
  let fullOrder := json oResp in
  let draftId := order_draft_id fullOrder in
  if negb (truthy_id draftId) then send 200 "No draft link" else
  (* 4) GET draft *)
  dResp ← shopifyGET_draft w draftId;
  if negb (ok dResp) then send 200 "GET draft failed" else
  let draft := json dResp in
  let draftAttrs := filter_wanted (draft_attributes draft) in
  if Nat.eqb (length draftAttrs) 0 then send 200 "No Zapiet attrs on draft"
  else
  (* 5) Merge + update order note_attributes *)
  let existing := order_attributes fullOrder in
  let merged := mergeNoteAttributes existing draftAttrs in
  if negb (differs existing merged) then send 200 "No changes needed" else
  putResp ← shopifyPUT w orderId merged;
  send 200 "Done"
  end.

End RevA.

(** ** The handler, second revision: only orders tagged for the wholesale
    channel are reconciled. *)
Module RevB.

Definition handler (w : world) (req : request) : Act reply :=
  if negb (String.eqb (method req) "POST") then send 200 "OK" else
  let raw := raw_body req in
  (* 1) Verify HMAC *)
  let secret := WEBHOOK_SECRET w in
  let hmacHeader := hmac_header req in
  if not_string secret || not_string hmacHeader then
    send 401 "Missing secret or hmac"
  else
  (* secret is a non-empty string from here on *)
  let digest := hmac_sha256_base64 w (or_empty_string secret) raw in
  if negb (timingSafeEqual (Some digest) hmacHeader) then
    send 401 "Bad HMAC"
  else
  (* 2) Parse webhook body *)
  match JSON_parse w raw with
  | None => send 400 "Bad JSON"
  | Some order =>
  let orderId := event_id order in
  if negb (truthy_id orderId) then send 200 "No order id" else
  (* 3) GET order *)
  oResp ← shopifyGET_order w orderId;
  if negb (ok oResp) then send 200 "GET order failed" else
  let fullOrder := json oResp in
  let tags := toLowerCase (order_tags fullOrder) in
  if negb (includes tags "samita-wholesale") then
    send 200 "Not a Samita order"
  else
  let draftId := order_draft_id fullOrder in
  if negb (truthy_id draftId) then send 200 "No draft link" else
  (* 4) GET draft *)
  dResp ← shopifyGET_draft w draftId;
  if negb (ok dResp) then send 200 "GET draft failed" else
  let draft := json dResp in
  let draftAttrs := filter_wanted (draft_attributes draft) in
  if Nat.eqb (length draftAttrs) 0 then send 200 "No Zapiet attrs on draft"
  else
  (* 5) Merge with existing *)
  let existing := order_attributes fullOrder in
  let merged := mergeNoteAttributes existing draftAttrs in
  if negb (differs existing merged) then send 200 "No changes needed" else
  (* 6) PUT order to update *)
  putResp ← shopifyPUT w orderId merged;
  send 200 "Done"
  end.

End RevB.

(** ** Authentication, in the words of the specification *)

(** A secret or a header is missing when it is absent or empty. *)
Definition missing (s : option string) : Prop := s = None ∨ s = Some "".

(** Authentication fails when the secret is missing, or the signature header
    is missing, or the MAC of the raw body under the secret is not the
    header value. *)
Definition authentication_fails (w : world) (req : request) : Prop :=
  missing (WEBHOOK_SECRET w)
  ∨ missing (hmac_header req)
  ∨ Some (hmac_sha256_base64 w (or_empty_string (WEBHOOK_SECRET w))
            (raw_body req)) ≠ hmac_header req.

(** The two tests of the handler that guard the 401 replies, as one test. *)
Definition authenticated (w : world) (req : request) : bool :=
  negb (not_string (WEBHOOK_SECRET w) || not_string (hmac_header req))
  && timingSafeEqual
       (Some (hmac_sha256_base64 w (or_empty_string (WEBHOOK_SECRET w))
                (raw_body req)))
       (hmac_header req).

(** The same world with other answers to the write. *)
Definition with_put (w : world) (put : ident → list entry → response unit)
  : world :=
  {| WEBHOOK_SECRET := WEBHOOK_SECRET w;
     hmac_sha256_base64 := hmac_sha256_base64 w;
     JSON_parse := JSON_parse w;
     orders := orders w;
     draft_orders := draft_orders w;
     orders_put := put |}.

(** The replies a run can end with. *)
Definition replies : list reply :=
  [ {| status := 200; text := "OK" |};
    {| status := 401; text := "Missing secret or hmac" |};
    {| status := 401; text := "Bad HMAC" |};
    {| status := 400; text := "Bad JSON" |};
    {| status := 200; text := "No order id" |};
    {| status := 200; text := "GET order failed" |};
    {| status := 200; text := "Not a Samita order" |};
    {| status := 200; text := "No draft link" |};
    {| status := 200; text := "GET draft failed" |};
    {| status := 200; text := "No Zapiet attrs on draft" |};
    {| status := 200; text := "No changes needed" |};
    {| status := 200; text := "Done" |} ].

(** ** A sample world

    A stand-in MAC and parser, a shop that answers every read with the given
    order and a draft carrying a delivery date, and a signed request for
    order 1. *)
Definition sample_hmac (secret raw : string) : string :=
  "mac(" ++ secret ++ "," ++ raw ++ ")".

Definition sample_body : string := "{" ++ quote "id" ++ ":1}".

Definition sample_world (o : order) : world :=
  {| WEBHOOK_SECRET := Some "secret";
     hmac_sha256_base64 := sample_hmac;
     JSON_parse := λ raw,
       if raw =? sample_body then Some (Some {| id := IdNum 1 |}) else None;
     orders := λ _, {| ok := true; json := Some o |};
     draft_orders := λ _,
       {| ok := true;
          json := Some {| draft_note_attributes :=
                    Some [Some (Attr (Str "Delivery-Date") (Str "2024-05-01"))] |} |};
     orders_put := λ _ _, {| ok := true; json := () |} |}.

Definition sample_request : request :=
  {| method := "POST";
     hmac_header := Some (sample_hmac "secret" sample_body);
     raw_body := sample_body |}.


Definition retail_order : order :=
  {| tags := Str "retail"; draft_order_id := IdNum 7; note_attributes := None |}.

Definition wholesale_order : order :=
  {| tags := Str "Wholesale, SAMITA-Wholesale";
     draft_order_id := IdNum 7;
     note_attributes := Some [Some (Attr (Str "Gift") (Str "yes"))] |}.

Definition unlinked_order : order :=
  {| tags := Str "Wholesale, SAMITA-Wholesale";
     draft_order_id := IdNull;
     note_attributes := None |}.

(** ** The response policy, in the words of the specification *)

(** How a run [r] of a handler on [req] ends, up to the parsed body. *)
Definition first_steps (w : world) (req : request) (r : reply * list call)
  : Prop :=
  (method req ≠ "POST" ∧ r = ({| status := 200; text := "OK" |}, []))
  ∨ (method req = "POST" ∧ authenticated w req = false
     ∧ status r.1 = 401 ∧ r.2 = [])
  ∨ (method req = "POST" ∧ authenticated w req = true
     ∧ JSON_parse w (raw_body req) = None
     ∧ r = ({| status := 400; text := "Bad JSON" |}, []))
  ∨ (method req = "POST" ∧ authenticated w req = true
     ∧ (∃ o, JSON_parse w (raw_body req) = Some o) ∧ status r.1 = 200).

(** The status policy of a handler [h] on a request: the reply is one of the
    listed ones, its status is 200, 401 or 400; it is 401 exactly on a POST
    that fails authentication and 400 exactly on an authenticated POST whose
    body does not parse; and neither the reply nor the calls depend on the
    answer to the write. *)
Definition status_policy (h : world → request → Act reply)
    (w : world) (req : request) : Prop :=
  let r := (run (h w req)).1 in
  r ∈ replies
  ∧ (status r = 200 ∨ status r = 401 ∨ status r = 400)
  ∧ (status r = 401 ↔ method req = "POST" ∧ authentication_fails w req)
  ∧ (status r = 400 ↔
       method req = "POST" ∧ ¬ authentication_fails w req
       ∧ JSON_parse w (raw_body req) = None)
  ∧ (status r = 200 ↔
       method req ≠ "POST"
       ∨ (¬ authentication_fails w req
          ∧ ∃ o, JSON_parse w (raw_body req) = Some o))
  ∧ ∀ put, run (h (with_put w put) req) = run (h w req).

(** ** Reading the request body

    [readRawBody] listens to the request stream: every [data] event pushes
    its chunk, the first [end] resolves the promise with the chunks joined,
    the first [error] rejects it.  A promise settles once, so what the
    stream emits later does not matter; a stream that emits neither leaves
    it pending. *)
Inductive stream_event :=
  | on_data (chunk : string)
  | on_end
  | on_error.

Inductive promise (A : Type) :=
  | resolved (a : A)
  | rejected
  | pending.
Arguments resolved {A} _.
Arguments rejected {A}.
Arguments pending {A}.

(** [Buffer.concat(chunks)] *)
Definition Buffer_concat (chunks : list string) : string :=
  String.concat "" chunks.

Fixpoint readRawBody_from (chunks : list string) (events : list stream_event)
  : promise string :=
  match events with
  | [] => pending
  | on_data c :: rest => readRawBody_from (chunks ++ [c])%list rest
  | on_end :: _ => resolved (Buffer_concat chunks)
  | on_error :: _ => rejected
  end.

Definition readRawBody (events : list stream_event) : promise string :=
  readRawBody_from [] events.

(** ** Reading JSON text back

    The first character of an escaped string, decoded, with the rest of the
    text; [None] on the closing quote. *)
Definition hex_value (c : ascii) : option N :=
  let n := N_of_ascii c in
  if ((48 <=? n) && (n <=? 57))%N then Some (n - 48)%N
  else if ((97 <=? n) && (n <=? 102))%N then Some (n - 87)%N
  else None.

Definition unescape_head (s : string) : option (ascii * string) :=
  match s with
  | EmptyString => None
  | String c rest =>
      let n := N_of_ascii c in
      if (n =? 34)%N then None
      else if (n =? 92)%N then
        match rest with
        | EmptyString => None
        | String e rest' =>
            let m := N_of_ascii e in
            if (m =? 34)%N then Some (e, rest')
            else if (m =? 92)%N then Some (e, rest')
            else if (m =? 98)%N then Some (ascii_of_N 8, rest')
            else if (m =? 102)%N then Some (ascii_of_N 12, rest')
            else if (m =? 110)%N then Some (ascii_of_N 10, rest')
            else if (m =? 114)%N then Some (ascii_of_N 13, rest')
            else if (m =? 116)%N then Some (ascii_of_N 9, rest')
            else if (m =? 117)%N then
              match rest' with
              | String _ (String _ (String h (String l r))) =>
                  match hex_value h, hex_value l with
                  | Some a, Some b => Some (ascii_of_N (16 * a + b), r)
                  | _, _ => None
                  end
              | _ => None
              end
            else None
        end
      else Some (c, rest)
  end.

(** The text [JSON_stringify] writes, with the text that follows each part
    passed along: [emit_entry e k] is [stringify_entry e ++ k]. *)
Definition emit_quoted (s k : string) : string :=
  String quote_char (escape s ++ String quote_char k).

Definition emit_value (v : field) (k : string) : string :=
  match v with
  | Undefined => k
  | Null => "null" ++ k
  | Str s => emit_quoted s k
  end.

Definition emit_entry (e : entry) (k : string) : string :=
  match e with
  | None => "null" ++ k
  | Some x =>
      "{" ++
      match name x, value x with
      | Undefined, Undefined => "}" ++ k
      | Undefined, v => emit_quoted "value" (":" ++ emit_value v ("}" ++ k))
      | n, Undefined => emit_quoted "name" (":" ++ emit_value n ("}" ++ k))
      | n, v =>
          emit_quoted "name"
            (":" ++ emit_value n
               ("," ++ emit_quoted "value" (":" ++ emit_value v ("}" ++ k))))
      end
  end.

Fixpoint emit_rest (l : list entry) (k : string) : string :=
  match l with
  | [] => "]" ++ k
  | e :: l' => "," ++ emit_entry e (emit_rest l' k)
  end.

Definition emit_list (l : list entry) : string :=
  "[" ++ match l with
         | [] => "]"
         | e :: l' => emit_entry e (emit_rest l' "")
         end.

(** ** The locals of the handler, as functions of the world and of the
    parsed body *)
Definition fullOrder_of (w : world) (o : option event) : option order :=
  json (orders w (event_id o)).

Definition draftId_of (w : world) (o : option event) : ident :=
  order_draft_id (fullOrder_of w o).

Definition draftAttrs_of (w : world) (o : option event) : list entry :=
  filter_wanted (draft_attributes (json (draft_orders w (draftId_of w o)))).

Definition existing_of (w : world) (o : option event) : list entry :=
  order_attributes (fullOrder_of w o).

Definition merged_of (w : world) (o : option event) : list entry :=
  mergeNoteAttributes (existing_of w o) (draftAttrs_of w o).

(** The tag test of the second revision. *)
Definition tagged (w : world) (o : option event) : bool :=
  includes (toLowerCase (order_tags (fullOrder_of w o))) "samita-wholesale".

(** The requests that end before any call to the shop. *)
Definition stops_before_shop (w : world) (req : request) : Prop :=
  method req ≠ "POST"
  ∨ authentication_fails w req
  ∨ JSON_parse w (raw_body req) = None
  ∨ ∃ o, JSON_parse w (raw_body req) = Some o ∧ truthy_id (event_id o) = false.

(** The calls of a run: nothing, or the order fetch, then the draft fetch,
    then the write to the order that was fetched. *)
Definition reads_then_write (w : world) (req : request) (c : list call)
  : Prop :=
  c = []
  ∨ ∃ o, JSON_parse w (raw_body req) = Some o
      ∧ (c = [GET_order (event_id o)]
         ∨ c = [GET_order (event_id o); GET_draft (draftId_of w o)]
         ∨ c = [GET_order (event_id o); GET_draft (draftId_of w o);
                PUT_order (event_id o) (merged_of w o)]).

(** The conditions under which a run writes. *)
Definition writes_when (w : world) (req : request) (o : option event) : Prop :=
  method req = "POST" ∧ ¬ authentication_fails w req
  ∧ JSON_parse w (raw_body req) = Some o ∧ truthy_id (event_id o) = true
  ∧ ok (orders w (event_id o)) = true ∧ truthy_id (draftId_of w o) = true
  ∧ ok (draft_orders w (draftId_of w o)) = true
  ∧ draftAttrs_of w o ≠ [] ∧ merged_of w o ≠ existing_of w o.

(** The world in which the shop has stored the list written to order [i]:
    that order now carries [m] as its attributes, all else is as before. *)
Definition after_put (w : world) (i : ident) (m : list entry) : world :=
  {| WEBHOOK_SECRET := WEBHOOK_SECRET w;
     hmac_sha256_base64 := hmac_sha256_base64 w;
     JSON_parse := JSON_parse w;
     orders := λ j,
       if decide (j = i) then
         {| ok := ok (orders w j);
            json := (λ o, {| tags := tags o;
                             draft_order_id := draft_order_id o;
                             note_attributes := Some m |}) <$> json (orders w j) |}
       else orders w j;
     draft_orders := draft_orders w;
     orders_put := orders_put w |}.

(** The sample world with a shop that refuses the order fetch, and one that
    refuses the draft fetch. *)
Definition order_outage_world : world :=
  {| WEBHOOK_SECRET := Some "secret";
     hmac_sha256_base64 := sample_hmac;
     JSON_parse := JSON_parse (sample_world wholesale_order);
     orders := λ _, {| ok := false; json := None |};
     draft_orders := draft_orders (sample_world wholesale_order);
     orders_put := orders_put (sample_world wholesale_order) |}.

Definition draft_outage_world : world :=
  {| WEBHOOK_SECRET := Some "secret";
     hmac_sha256_base64 := sample_hmac;
     JSON_parse := JSON_parse (sample_world wholesale_order);
     orders := orders (sample_world wholesale_order);
     draft_orders := λ _, {| ok := false; json := None |};
     orders_put := orders_put (sample_world wholesale_order) |}.

(** ** Attribute values of any JSON kind

    A [value] read from a JSON document can also be a boolean or a number.
    The merge looks at a value only through [a.value ?? ""], so the same
    loop is embedded once more over such values; on values that are absent,
    null or strings it is the merge above ([merge_any_widen]). *)
Inductive jsvalue :=
  | VUndefined
  | VNull
  | VBool (b : bool)
  | VNum (z : Z)
  | VStr (s : string).

#[global] Instance jsvalue_eq_dec : EqDecision jsvalue.
Proof. solve_decision. Defined.

Record attr_any := AttrAny { any_name : field; any_value : jsvalue }.

#[global] Instance attr_any_eq_dec : EqDecision attr_any.
Proof. solve_decision. Defined.

Abbreviation entry_any := (option attr_any).

(** [a?.name] *)
Definition opt_name_any (a : entry_any) : field :=
  match a with
  | Some x => any_name x
  | None => Undefined
  end.

Definition key_of_any (a : entry_any) : option string :=
  match opt_name_any a with
  | Str s => if truthy (Str s) then Some s else None
  | _ => None
  end.

(** [a.value] *)
Definition opt_value_any (a : entry_any) : jsvalue :=
  match a with
  | Some x => any_value x
  | None => VUndefined
  end.

(** [v ?? ""]: only [null] and [undefined] are replaced. *)
Definition or_empty_any (v : jsvalue) : jsvalue :=
  match v with
  | VUndefined | VNull => VStr ""
  | _ => v
  end.

(** [{ name: a.name, value: a.value ?? "" }] *)
Definition new_object_any (a : entry_any) : entry_any :=
  Some {| any_name := opt_name_any a;
          any_value := or_empty_any (opt_value_any a) |}.

Fixpoint forEach_set_any (i : nat) (out : list entry_any)
    (idx : gmap string nat) : gmap string nat :=
  match out with
  | [] => idx
  | a :: rest =>
      forEach_set_any (S i) rest
        (match key_of_any a with
         | Some n => <[n := i]> idx
         | None => idx
         end)
  end.

Definition upsert_any (idx : gmap string nat) (out : list entry_any)
    (a : entry_any) : list entry_any :=
  match key_of_any a with
  | None => out
  | Some n =>
      match idx !! n with
      | None => (out ++ [new_object_any a])%list
      | Some i => <[i := new_object_any a]> out
      end
  end.

Definition mergeNoteAttributes_any (existing incoming : list entry_any)
  : list entry_any :=
  let out := existing in
  let idx := forEach_set_any 0 out ∅ in
  foldl (upsert_any idx) out incoming.

Definition is_string (v : jsvalue) : bool :=
  match v with
  | VStr _ => true
  | _ => false
  end.

Definition is_nullish (v : jsvalue) : bool :=
  match v with
  | VUndefined | VNull => true
  | _ => false
  end.

(** A value of the first embedding, among the values of any kind. *)
Definition widen (v : field) : jsvalue :=
  match v with
  | Undefined => VUndefined
  | Null => VNull
  | Str s => VStr s
  end.

Definition widen_entry (a : entry) : entry_any :=
  (λ x, {| any_name := name x; any_value := widen (value x) |}) <$> a.

(** ** Calls that do not answer

    [readRawBody] rejects when the request stream errors, [fetch] rejects
    when the shop cannot be reached, and [res.json()] rejects when an ok
    answer carries no JSON document.  The handler awaits all of them outside
    any [try], so a rejection ends the run: the promise of the handler
    rejects and no reply is sent.  [faults] says which of them reject; what
    those that answer give is taken from the request and the world.  The
    text of a failed write is read behind a [catch] and cannot reject. *)
Record faults := {
  body_read_rejects : bool;
  order_fetch_rejects : ident → bool;
  order_json_rejects : ident → bool;
  draft_fetch_rejects : ident → bool;
  draft_json_rejects : ident → bool;
  put_rejects : ident → list entry → bool
}.

Definition no_faults : faults :=
  {| body_read_rejects := false;
     order_fetch_rejects := λ _, false;
     order_json_rejects := λ _, false;
     draft_fetch_rejects := λ _, false;
     draft_json_rejects := λ _, false;
     put_rejects := λ _ _, false |}.

(** An action that may throw: it runs against the calls issued so far, adds
    its own, and settles with a result or rejects. *)
Definition Try (A : Type) : Type := list call → promise A * list call.

#[global] Instance Try_ret : MRet Try := λ A (a : A) calls, (resolved a, calls).

#[global] Instance Try_bind : MBind Try :=
  λ A B (k : A → Try B) (m : Try A) calls,
    match m calls with
    | (resolved a, calls') => k a calls'
    | (rejected, calls') => (rejected, calls')
    | (pending, calls') => (pending, calls')
    end.

(** [await fetch(...)]: the call is issued, then answers or rejects. *)
Definition await_fetch {A : Type} (c : call) (rejects : bool) (answer : A)
  : Try A :=
  λ calls, (if rejects then rejected else resolved answer, (calls ++ [c])%list).

(** [await readRawBody(req)] *)
Definition await_readRawBody (rejects : bool) (req : request) : Try string :=
  λ calls, (if rejects then rejected else resolved (raw_body req), calls).

(** [await res.json()] *)
Definition await_json {T : Type} (rejects : bool) (res : response T) : Try T :=
  λ calls, (if rejects then rejected else resolved (json res), calls).

Definition send_reply (s : nat) (t : string) : Try reply :=
  mret {| status := s; text := t |}.

Definition run_try {A : Type} (m : Try A) : promise A * list call := m [].

(** ** The handlers, with calls that may not answer *)
Module RevA_net.

Definition handler (w : world) (f : faults) (req : request) : Try reply :=
  if negb (String.eqb (method req) "POST") then send_reply 200 "OK" else
  (* 1) Verify HMAC *)
  raw ← await_readRawBody (body_read_rejects f) req;
  let secret := WEBHOOK_SECRET w in
  let hmacHeader := hmac_header req in
  if not_string secret || not_string hmacHeader then
    send_reply 401 "Missing secret or hmac"
  else
  let digest := hmac_sha256_base64 w (or_empty_string secret) raw in
  if negb (timingSafeEqual (Some digest) hmacHeader) then
    send_reply 401 "Bad HMAC"
  else
  (* 2) Parse webhook *)
  match JSON_parse w raw with
  | None => send_reply 400 "Bad JSON"
  | Some order =>
  let orderId := event_id order in
  if negb (truthy_id orderId) then send_reply 200 "No order id" else
  (* 3) GET order *)
  oResp ← await_fetch (GET_order orderId) (order_fetch_rejects f orderId)
            (orders w orderId);
  if negb (ok oResp) then send_reply 200 "GET order failed" else
  fullOrder ← await_json (order_json_rejects f orderId) oResp;
  let draftId := order_draft_id fullOrder in
  if negb (truthy_id draftId) then send_reply 200 "No draft link" else
  (* 4) GET draft *)
  dResp ← await_fetch (GET_draft draftId) (draft_fetch_rejects f draftId)
            (draft_orders w draftId);
  if negb (ok dResp) then send_reply 200 "GET draft failed" else
  draft ← await_json (draft_json_rejects f draftId) dResp;
  let draftAttrs := filter_wanted (draft_attributes draft) in
  if Nat.eqb (length draftAttrs) 0 then
    send_reply 200 "No Zapiet attrs on draft"
  else
  (* 5) Merge + update order note_attributes *)
  let existing := order_attributes fullOrder in
  let merged := mergeNoteAttributes existing draftAttrs in
  if negb (differs existing merged) then send_reply 200 "No changes needed"
  else
  putResp ← await_fetch (PUT_order orderId merged)
              (put_rejects f orderId merged) (orders_put w orderId merged);
  send_reply 200 "Done"
  end.

End RevA_net.

Module RevB_net.

Definition handler (w : world) (f : faults) (req : request) : Try reply :=
  if negb (String.eqb (method req) "POST") then send_reply 200 "OK" else
  raw ← await_readRawBody (body_read_rejects f) req;
  (* 1) Verify HMAC *)
  let secret := WEBHOOK_SECRET w in
  let hmacHeader := hmac_header req in
  if not_string secret || not_string hmacHeader then
    send_reply 401 "Missing secret or hmac"
  else
  let digest := hmac_sha256_base64 w (or_empty_string secret) raw in
  if negb (timingSafeEqual (Some digest) hmacHeader) then
    send_reply 401 "Bad HMAC"
  else
  (* 2) Parse webhook body *)
  match JSON_parse w raw with
  | None => send_reply 400 "Bad JSON"
  | Some order =>
  let orderId := event_id order in
  if negb (truthy_id orderId) then send_reply 200 "No order id" else
  (* 3) GET order *)
  oResp ← await_fetch (GET_order orderId) (order_fetch_rejects f orderId)
            (orders w orderId);
  if negb (ok oResp) then send_reply 200 "GET order failed" else
  fullOrder ← await_json (order_json_rejects f orderId) oResp;
  let tags := toLowerCase (order_tags fullOrder) in
  if negb (includes tags "samita-wholesale") then
    send_reply 200 "Not a Samita order"
  else
  let draftId := order_draft_id fullOrder in
  if negb (truthy_id draftId) then send_reply 200 "No draft link" else
  (* 4) GET draft *)
  dResp ← await_fetch (GET_draft draftId) (draft_fetch_rejects f draftId)
            (draft_orders w draftId);
  if negb (ok dResp) then send_reply 200 "GET draft failed" else
  draft ← await_json (draft_json_rejects f draftId) dResp;
  let draftAttrs := filter_wanted (draft_attributes draft) in
  if Nat.eqb (length draftAttrs) 0 then
    send_reply 200 "No Zapiet attrs on draft"
  else
  (* 5) Merge with existing *)
  let existing := order_attributes fullOrder in
  let merged := mergeNoteAttributes existing draftAttrs in
  if negb (differs existing merged) then send_reply 200 "No changes needed"
  else
  (* 6) PUT order to update *)
  putResp ← await_fetch (PUT_order orderId merged)
              (put_rejects f orderId merged) (orders_put w orderId merged);
  send_reply 200 "Done"
  end.

End RevB_net.

(** The shop cannot be reached: every fetch rejects.  The write cannot be
    made: only the PUT rejects.  The request stream errors: the body read
    rejects. *)
Definition stream_broken : faults :=
  {| body_read_rejects := true;
     order_fetch_rejects := λ _, false;
     order_json_rejects := λ _, false;
     draft_fetch_rejects := λ _, false;
     draft_json_rejects := λ _, false;
     put_rejects := λ _ _, false |}.

Definition shop_unreachable : faults :=
  {| body_read_rejects := false;
     order_fetch_rejects := λ _, true;
     order_json_rejects := λ _, false;
     draft_fetch_rejects := λ _, true;
     draft_json_rejects := λ _, false;
     put_rejects := λ _ _, true |}.

Definition write_unreachable : faults :=
  {| body_read_rejects := false;
     order_fetch_rejects := λ _, false;
     order_json_rejects := λ _, false;
     draft_fetch_rejects := λ _, false;
     draft_json_rejects := λ _, false;
     put_rejects := λ _ _, true |}.

(** ** Letters up to ASCII case

    [c] is the capital of [d]: [c] is one of A to Z and [d] is 32 above. *)
Definition is_upper (c : ascii) : bool :=
  ((65 <=? N_of_ascii c) && (N_of_ascii c <=? 90))%N.

Definition capital_of (d c : ascii) : bool :=
  is_upper c && (N_of_ascii d =? N_of_ascii c + 32)%N.

Definition same_letter (c d : ascii) : bool :=
  bool_decide (c = d) || capital_of d c || capital_of c d.

Fixpoint same_up_to_case (s t : string) : bool :=
  match s, t with
  | EmptyString, EmptyString => true
  | String c s', String d t' => same_letter c d && same_up_to_case s' t'
  | _, _ => false
  end.

Fixpoint no_upper (s : string) : bool :=
  match s with
  | EmptyString => true
  | String c s' => negb (is_upper c) && no_upper s'
  end.

(** * Properties of the merge *)

(** The example of the specification, from the unfiltered draft. *)
Example merge_filtered_draft :
  mergeNoteAttributes
    [Some (Attr (Str "Gift") (Str "yes"))]
    (filter_wanted
       [Some (Attr (Str "Delivery-Date") (Str "2024-05-01"));
        Some (Attr (Str "Unrelated") (Str "x"))])
  = [Some (Attr (Str "Gift") (Str "yes"));
     Some (Attr (Str "Delivery-Date") (Str "2024-05-01"))].
Proof. vm_compute. reflexivity. Qed.

(** The index is built once, before the loop: a new name that comes twice
    is pushed twice, and merging again assigns both values to the last of
    the two places, in order, which leaves the list as it is. *)
Example merge_repeated_new_name :
  let D := [Some (Attr (Str "Delivery-Date") (Str "a"));
            Some (Attr (Str "Delivery-Date") (Str "b"))] in
  mergeNoteAttributes [] D = D ∧ mergeNoteAttributes D D = D.
Proof. vm_compute. split; reflexivity. Qed.

(** Elements that are null, have no name or have an empty name. *)
Example merge_unnamed :
  mergeNoteAttributes
    [None; Some (Attr (Str "") (Str "kept")); Some (Attr Null (Str "kept"))]
    [None; Some (Attr (Str "") (Str "x")); Some (Attr Undefined (Str "y"));
     Some (Attr (Str "Checkout-Method") Null)]
  = [None; Some (Attr (Str "") (Str "kept")); Some (Attr Null (Str "kept"));
     Some (Attr (Str "Checkout-Method") (Str ""))].
Proof. vm_compute. reflexivity. Qed.

Section merge_facts.

Local Open Scope list_scope.

Implicit Types (n : string) (a e : entry) (l E D : list entry).

Lemma key_of_new_object a n : key_of a = Some n → key_of (new_object a) = Some n.
Proof. unfold key_of, new_object. simpl. done. Qed.

Lemma key_of_Some_inv a n :
  key_of a = Some n → ∃ x, a = Some x ∧ name x = Str n ∧ n ≠ "".
Proof.
  unfold key_of, opt_name. destruct a as [[nm v]|]; simpl; [|done].
  destruct nm as [| |s]; simpl; try done.
  destruct (String.eqb_spec s ""); simpl; [done|].
  intros [= <-]. eauto.
Qed.

(** *** Positions of names *)

Lemma last_pos_lt n l k : last_pos n l = Some k → k < length l.
Proof.
  revert k. induction l as [|a l IH]; simpl; intros k; [done|].
  destruct (last_pos n l) as [j|].
  - intros [= <-]. specialize (IH j eq_refl). lia.
  - case_decide; [|done]. intros [= <-]. lia.
Qed.

Lemma last_pos_None n l :
  last_pos n l = None ↔ ∀ a, a ∈ l → key_of a ≠ Some n.
Proof.
  induction l as [|b l IH]; simpl.
  - split; [|done]. intros _ a Ha. by apply elem_of_nil in Ha.
  - destruct (last_pos n l) as [j|].
    + split; [done|]. intros H. exfalso.
      assert (Some j = None) as Hj; [|done].
      apply IH. intros a Ha. apply H. by right.
    + case_decide as Hb.
      * split; [done|]. intros H. exfalso. by apply (H b); [left|].
      * split; [|done]. intros _ a [->|Ha]%elem_of_cons; [done|].
        by apply IH.
Qed.

Lemma last_pos_Some n l k :
  last_pos n l = Some k ↔
  (∃ a, l !! k = Some a ∧ key_of a = Some n) ∧
  (∀ j b, k < j → l !! j = Some b → key_of b ≠ Some n).
Proof.
  revert k. induction l as [|c l IH]; intros k; simpl.
  - split; [done|]. by intros [(a & ? & _) _].
  - destruct (last_pos n l) as [i|] eqn:Hl.
    + split.
      * intros [= <-]. destruct (proj1 (IH i) eq_refl) as [Hi Hlast].
        split; [done|]. intros [|j] b Hj; [lia|]. simpl.
        apply Hlast. lia.
      * intros [(a & Ha & Hk) Hlast]. f_equal. destruct k as [|k].
        -- destruct (proj1 (IH i) eq_refl) as [(b & Hb & Hkb) _].
           exfalso. apply (Hlast (S i) b); [lia|done|done].
        -- f_equal. assert (Some i = Some k) as [= ->]; [|done].
           apply IH. split; [by eauto|].
           intros j b Hj Hb. apply (Hlast (S j) b); [lia|done].
    + pose proof (proj1 (last_pos_None n l) Hl) as Hnone.
      case_decide as Hc.
      * split.
        -- intros [= <-]. split; [by eauto|].
           intros [|j] b Hj Hb; [lia|]. simpl in Hb.
           apply Hnone. by eapply list_elem_of_lookup_2.
        -- intros [(a & Ha & Hk) _]. destruct k as [|k]; [done|].
           simpl in Ha. exfalso. eapply Hnone; [|done].
           by eapply list_elem_of_lookup_2.
      * split; [done|]. intros [(a & Ha & Hk) _]. exfalso.
        destruct k as [|k]; simpl in Ha.
        -- by injection Ha as ->.
        -- eapply Hnone; [|done]. by eapply list_elem_of_lookup_2.
Qed.

Lemma last_pos_app n l1 l2 :
  last_pos n (l1 ++ l2) =
  match last_pos n l2 with
  | Some k => Some (length l1 + k)
  | None => last_pos n l1
  end.
Proof.
  induction l1 as [|a l1 IH]; simpl.
  - by destruct (last_pos n l2).
  - rewrite IH. by destruct (last_pos n l2).
Qed.

(** [last_pos] only reads the keys. *)
Lemma last_pos_keys n l1 l2 :
  key_of <$> l1 = key_of <$> l2 → last_pos n l1 = last_pos n l2.
Proof.
  revert l2. induction l1 as [|a l1 IH]; intros [|b l2]; simpl; try done.
  intros [= Hab Hl]. rewrite (IH l2 Hl), Hab. done.
Qed.

Lemma last_entry_pos n l :
  last_entry n l = last_pos n l ≫= (l !!.).
Proof.
  induction l as [|a l IH]; simpl; [done|].
  rewrite IH. destruct (last_pos n l) as [k|] eqn:Hl; simpl.
  - apply last_pos_lt in Hl. apply lookup_lt_is_Some_2 in Hl as [b ->]. done.
  - by case_decide.
Qed.

Lemma last_entry_key n l a : last_entry n l = Some a → key_of a = Some n.
Proof.
  rewrite last_entry_pos. destruct (last_pos n l) as [k|] eqn:Hl; [|done].
  simpl. intros Ha. apply last_pos_Some in Hl as [(b & Hb & Hk) _].
  congruence.
Qed.

Lemma last_entry_snoc n l a :
  last_entry n (l ++ [a]) =
  if decide (key_of a = Some n) then Some a else last_entry n l.
Proof.
  induction l as [|b l IH]; simpl.
  - by case_decide.
  - rewrite IH. case_decide; [done|]. done.
Qed.

(** *** The index built by [forEach] *)

Lemma forEach_set_lookup l i (idx : gmap string nat) n :
  forEach_set i l idx !! n =
  match last_pos n l with
  | Some k => Some (i + k)
  | None => idx !! n
  end.
Proof.
  revert i idx. induction l as [|a l IH]; intros i idx; simpl; [done|].
  rewrite IH. destruct (last_pos n l) as [k|]; [f_equal; lia|].
  destruct (key_of a) as [m|] eqn:Ha.
  - case_decide as Hm.
    + injection Hm as ->. rewrite lookup_insert_eq. f_equal. lia.
    + rewrite lookup_insert_ne; [done|]. congruence.
  - by case_decide.
Qed.

Lemma index_lookup E n : forEach_set 0 E ∅ !! n = last_pos n E.
Proof.
  rewrite forEach_set_lookup, lookup_empty. by destruct (last_pos n E).
Qed.

(** Every stored index is in range: the assignment never extends. *)
Lemma index_in_range E n i : forEach_set 0 E ∅ !! n = Some i → i < length E.
Proof. rewrite index_lookup. apply last_pos_lt. Qed.

(** *** The merge in closed form *)

Lemma length_overwritten D E : length (overwritten D E) = length E.
Proof. induction E as [|e E IH]; simpl; [done|]. by rewrite IH. Qed.

Lemma overwritten_nil E : overwritten [] E = E.
Proof.
  induction E as [|e E IH]; simpl; [done|]. rewrite IH. f_equal.
  destruct (key_of e); [|done]. by destruct (last_pos _ E).
Qed.

Lemma written_snoc n D a e :
  written n (D ++ [a]) e =
  if decide (key_of a = Some n) then new_object a else written n D e.
Proof. unfold written. rewrite last_entry_snoc. by case_decide. Qed.

Lemma overwritten_snoc_miss D E a :
  (∀ m, key_of a = Some m → last_pos m E = None) →
  overwritten (D ++ [a]) E = overwritten D E.
Proof.
  induction E as [|e E IH]; simpl; [done|]. intros Hmiss.
  rewrite IH.
  - f_equal. destruct (key_of e) as [n|] eqn:He; [|done].
    destruct (last_pos n E) eqn:Hn; [done|].
    rewrite written_snoc. case_decide as Ha; [|done].
    specialize (Hmiss n Ha). rewrite Hn in Hmiss.
    rewrite decide_True in Hmiss by done. done.
  - intros m Hm. specialize (Hmiss m Hm).
    by destruct (last_pos m E).
Qed.

Lemma overwritten_snoc_hit D E a m j :
  key_of a = Some m → last_pos m E = Some j →
  overwritten (D ++ [a]) E = <[j := new_object a]> (overwritten D E).
Proof.
  intros Ha. revert j. induction E as [|e E IH]; intros j; simpl; [done|].
  destruct (last_pos m E) as [k|] eqn:Hm.
  - intros [= <-]. simpl. rewrite (IH k eq_refl). f_equal.
    destruct (key_of e) as [n|] eqn:He; [|done].
    destruct (last_pos n E) eqn:Hn; [done|].
    rewrite written_snoc. case_decide as Hnm; [|done].
    congruence.
  - case_decide as He; [|done]. intros [= <-]. simpl.
    rewrite He, Hm, written_snoc, decide_True by done. f_equal.
    apply overwritten_snoc_miss. intros m' Hm'. congruence.
Qed.

Lemma appended_snoc E D a :
  appended E (D ++ [a]) =
  appended E D ++ if is_new E a then [new_object a] else [].
Proof.
  unfold appended. rewrite filter_app, fmap_app. f_equal.
  destruct (is_new E a) eqn:Hnew.
  - by rewrite filter_cons_True.
  - rewrite filter_cons_False; [done|]. congruence.
Qed.

Lemma upsert_closed E D a :
  upsert (forEach_set 0 E ∅) (overwritten D E ++ appended E D) a =
  overwritten (D ++ [a]) E ++ appended E (D ++ [a]).
Proof.
  unfold upsert. rewrite appended_snoc. unfold is_new.
  destruct (key_of a) as [m|] eqn:Ha.
  - rewrite index_lookup. destruct (last_pos m E) as [j|] eqn:Hm.
    + rewrite bool_decide_eq_false_2, app_nil_r by done.
      rewrite (overwritten_snoc_hit D E a m j) by done.
      apply insert_app_l. rewrite length_overwritten.
      by eapply last_pos_lt.
    + rewrite bool_decide_eq_true_2 by done.
      rewrite overwritten_snoc_miss; [by rewrite <- app_assoc|].
      intros m' Hm'. congruence.
  - rewrite app_nil_r, overwritten_snoc_miss; [done|congruence].
Qed.

(** The loop computes the closed form. *)
Lemma merge_closed E D :
  mergeNoteAttributes E D = overwritten D E ++ appended E D.
Proof.
  unfold mergeNoteAttributes.
  induction D as [|a D IH] using rev_ind; simpl.
  - by rewrite overwritten_nil, app_nil_r.
  - rewrite foldl_snoc, IH. apply upsert_closed.
Qed.

(** *** Reading positions of the closed form *)

Lemma overwritten_lookup_last D E n k e :
  last_pos n E = Some k → E !! k = Some e →
  overwritten D E !! k = Some (written n D e).
Proof.
  revert k. induction E as [|x E IH]; intros k; simpl; [done|].
  destruct (last_pos n E) as [j|] eqn:Hn.
  - intros [= <-]. simpl. by apply IH.
  - case_decide as Hx; [|done]. intros [= <-] [= <-]. simpl.
    by rewrite Hx, Hn.
Qed.

Lemma overwritten_lookup_other D E k e :
  E !! k = Some e → (∀ n, key_of e = Some n → last_pos n E ≠ Some k) →
  overwritten D E !! k = Some e.
Proof.
  revert k. induction E as [|x E IH]; intros k; simpl; [done|].
  destruct k as [|k]; simpl.
  - intros [= <-] Hother. f_equal.
    destruct (key_of x) as [n|] eqn:Hx; [|done].
    destruct (last_pos n E) eqn:Hn; [done|].
    specialize (Hother n eq_refl). rewrite Hn, decide_True in Hother; done.
  - intros He Hother. apply IH; [done|].
    intros n Hn Hk. specialize (Hother n Hn). by rewrite Hk in Hother.
Qed.

Lemma written_key n D e : key_of e = Some n → key_of (written n D e) = Some n.
Proof.
  intros He. unfold written. destruct (last_entry n D) as [a|] eqn:Ha; [|done].
  apply key_of_new_object. by eapply last_entry_key.
Qed.

Lemma opt_name_keyed a n : key_of a = Some n → opt_name a = Str n.
Proof. intros (x & -> & Hx & _)%key_of_Some_inv. done. Qed.

Lemma written_name n D e :
  key_of e = Some n → opt_name (written n D e) = opt_name e.
Proof.
  intros He. unfold written. destruct (last_entry n D) as [a|] eqn:Ha; [|done].
  apply last_entry_key in Ha. simpl.
  by rewrite (opt_name_keyed a n), (opt_name_keyed e n).
Qed.

(** The written elements carry the names they had, at the places they had. *)
Lemma overwritten_names D E : opt_name <$> overwritten D E = opt_name <$> E.
Proof.
  induction E as [|e E IH]; csimpl; [done|]. rewrite IH. f_equal.
  destruct (key_of e) as [n|] eqn:He; [|done].
  destruct (last_pos n E); [done|]. by apply written_name.
Qed.

Lemma overwritten_keys D E : key_of <$> overwritten D E = key_of <$> E.
Proof.
  induction E as [|e E IH]; csimpl; [done|]. rewrite IH. f_equal.
  destruct (key_of e) as [n|] eqn:He; [|done].
  destruct (last_pos n E); [done|]. by apply written_key.
Qed.

Lemma is_new_spec E a :
  is_new E a = true ↔ ∃ n, key_of a = Some n ∧ last_pos n E = None.
Proof.
  unfold is_new. destruct (key_of a) as [n|].
  - rewrite bool_decide_eq_true. split; [by eauto|]. by intros (? & [= <-] & ?).
  - split; [done|]. by intros (? & ? & _).
Qed.

Lemma elem_of_appended E D x :
  x ∈ appended E D ↔ ∃ a, a ∈ D ∧ is_new E a = true ∧ x = new_object a.
Proof.
  unfold appended. rewrite list_elem_of_fmap. split.
  - intros (a & -> & [Hnew Ha]%list_elem_of_filter). eauto.
  - intros (a & Ha & Hnew & ->). exists a. split; [done|].
    by apply list_elem_of_filter.
Qed.

(** An appended element never carries a name the existing list has. *)
Lemma appended_fresh_name E D x n :
  x ∈ appended E D → key_of x = Some n → last_pos n E = None.
Proof.
  intros (a & _ & (m & Hm & Hnone)%is_new_spec & ->)%elem_of_appended Hx.
  rewrite (key_of_new_object a m Hm) in Hx. congruence.
Qed.

Lemma last_entry_appended E D n :
  last_pos n E = None →
  last_entry n (appended E D) = new_object <$> last_entry n D.
Proof.
  intros Hn. induction D as [|a D IH] using rev_ind; [done|].
  rewrite appended_snoc, (last_entry_snoc n D).
  destruct (is_new E a) eqn:Hnew.
  - apply is_new_spec in Hnew as (m & Hm & _).
    rewrite last_entry_snoc, (key_of_new_object a m Hm), Hm.
    case_decide; [done|]. apply IH.
  - rewrite app_nil_r, IH. case_decide as Ha; [|done].
    assert (is_new E a = true) by (apply is_new_spec; eauto). congruence.
Qed.

Lemma last_entry_elem n l a : last_entry n l = Some a → a ∈ l.
Proof.
  rewrite last_entry_pos. destruct (last_pos n l) as [k|]; [|done].
  simpl. apply list_elem_of_lookup_2.
Qed.

Lemma overwritten_lookup_cases D E i x :
  overwritten D E !! i = Some x →
  E !! i = Some x ∨
  ∃ n a, last_pos n E = Some i ∧ last_entry n D = Some a ∧ x = new_object a.
Proof.
  intros Hx.
  assert (i < length E) as [e He]%lookup_lt_is_Some_2.
  { rewrite <- (length_overwritten D E). by eapply lookup_lt_Some. }
  destruct (key_of e) as [n|] eqn:Hk.
  - destruct (decide (last_pos n E = Some i)) as [Hlast|Hlast].
    + rewrite (overwritten_lookup_last D E n i e Hlast He) in Hx.
      injection Hx as <-. unfold written.
      destruct (last_entry n D) as [a|] eqn:Ha; [|by left].
      right. by exists n, a.
    + left. rewrite (overwritten_lookup_other D E i e He) in Hx; congruence.
  - left. rewrite (overwritten_lookup_other D E i e He) in Hx; congruence.
Qed.

(** Every element of the merged list is the existing element of that place
    or the object built from a named incoming element. *)
Lemma merge_lookup_cases E D i x :
  mergeNoteAttributes E D !! i = Some x →
  E !! i = Some x ∨
  ∃ a n, a ∈ D ∧ key_of a = Some n ∧ x = new_object a.
Proof.
  rewrite merge_closed. intros Hx.
  apply lookup_app_Some in Hx as [Hx|[_ Hx]].
  - apply overwritten_lookup_cases in Hx as [?|(n & a & _ & Ha & ->)]; [by left|].
    right. exists a, n. split; [by eapply last_entry_elem|].
    split; [by eapply last_entry_key|done].
  - right. apply list_elem_of_lookup_2, elem_of_appended in Hx
      as (a & Ha & (n & Hn & _)%is_new_spec & ->).
    by exists a, n.
Qed.

(** *** Merging twice *)

Lemma overwritten_id D l :
  (∀ n k e, last_pos n l = Some k → l !! k = Some e → written n D e = e) →
  overwritten D l = l.
Proof.
  induction l as [|x l IH]; simpl; [done|]. intros Hfix. f_equal.
  - destruct (key_of x) as [n|] eqn:Hx; [|done].
    destruct (last_pos n l) eqn:Hn; [done|].
    apply (Hfix n 0); [|done]. by rewrite Hn, decide_True.
  - apply IH. intros n k e Hk He. apply (Hfix n (S k)); [|done].
    by rewrite Hk.
Qed.

Lemma merged_last_written E D n k e :
  last_pos n (mergeNoteAttributes E D) = Some k →
  mergeNoteAttributes E D !! k = Some e →
  written n D e = e.
Proof.
  rewrite merge_closed, last_pos_app.
  destruct (last_pos n (appended E D)) as [j|] eqn:Hj.
  - intros [= <-]. rewrite lookup_app_r, length_overwritten by lia.
    replace (length E + j - length E) with j by lia.
    intros He.
    assert (last_pos n E = None) as Hnew.
    { apply last_pos_Some in Hj as [(x & Hx & Hkx) _].
      eapply appended_fresh_name; [|done]. by eapply list_elem_of_lookup_2. }
    pose proof (last_entry_appended E D n Hnew) as Hlast.
    rewrite last_entry_pos, Hj in Hlast. simpl in Hlast.
    rewrite He in Hlast. unfold written.
    destruct (last_entry n D); simpl in Hlast; congruence.
  - rewrite (last_pos_keys n _ E (overwritten_keys D E)). intros Hk.
    pose proof (last_pos_lt _ _ _ Hk) as Hlt.
    rewrite lookup_app_l by (by rewrite length_overwritten).
    apply lookup_lt_is_Some_2 in Hlt as [e0 He0].
    rewrite (overwritten_lookup_last D E n k e0 Hk He0).
    intros [= <-]. unfold written.
    by destruct (last_entry n D).
Qed.

Lemma merged_has_incoming_names E D a :
  a ∈ D → is_new (mergeNoteAttributes E D) a = false.
Proof.
  intros Ha. destruct (is_new _ a) eqn:Hnew; [|done]. exfalso.
  apply is_new_spec in Hnew as (n & Hn & Hnone).
  rewrite merge_closed, last_pos_app in Hnone.
  destruct (last_pos n (appended E D)) eqn:Happ; [done|].
  rewrite (last_pos_keys n _ E (overwritten_keys D E)) in Hnone.
  eapply (proj1 (last_pos_None n (appended E D)) Happ (new_object a)).
  - apply elem_of_appended. exists a. split; [done|]. split; [|done].
    apply is_new_spec. eauto.
  - by apply key_of_new_object.
Qed.

Lemma filter_none {A} (P : A → Prop) `{∀ x, Decision (P x)} (l : list A) :
  (∀ x, x ∈ l → ¬ P x) → filter P l = [].
Proof.
  induction l as [|x l IH]; [done|]. intros Hnone.
  rewrite filter_cons_False by (apply Hnone; by left).
  apply IH. intros y Hy. apply Hnone. by right.
Qed.

Lemma merge_idempotent E D :
  mergeNoteAttributes (mergeNoteAttributes E D) D = mergeNoteAttributes E D.
Proof.
  rewrite (merge_closed (mergeNoteAttributes E D) D).
  replace (appended (mergeNoteAttributes E D) D) with (@nil entry).
  - rewrite app_nil_r. apply overwritten_id.
    intros n k e. apply merged_last_written.
  - symmetry. unfold appended. rewrite filter_none; [done|].
    intros a Ha. by rewrite merged_has_incoming_names.
Qed.

(** *** Elements with no name *)

Lemma named_spec a : named a = true ↔ ∃ n, key_of a = Some n.
Proof.
  unfold named. destruct (key_of a); split; try done; [by eauto|].
  by intros [? ?].
Qed.

Lemma upsert_unnamed idx out a : named a = false → upsert idx out a = out.
Proof. unfold named, upsert. by destruct (key_of a). Qed.

Lemma foldl_upsert_named idx out D :
  foldl (upsert idx) out (filter (λ a, named a = true) D) =
  foldl (upsert idx) out D.
Proof.
  revert out. induction D as [|a D IH]; intros out; [done|].
  destruct (named a) eqn:Ha.
  - rewrite filter_cons_True by done. simpl. apply IH.
  - rewrite filter_cons_False by congruence. simpl.
    rewrite (upsert_unnamed idx out a Ha). apply IH.
Qed.

Lemma last_pos_filter_named n l :
  last_pos n (filter (λ a, named a = true) l) = None ↔ last_pos n l = None.
Proof.
  rewrite !last_pos_None. split.
  - intros H a Ha Hk. apply (H a); [|done].
    apply list_elem_of_filter. split; [|done]. apply named_spec. eauto.
  - intros H a [_ Ha]%list_elem_of_filter. by apply H.
Qed.

Lemma overwritten_filter_named D E :
  filter (λ a, named a = true) (overwritten D E) =
  overwritten D (filter (λ a, named a = true) E).
Proof.
  induction E as [|e E IH]; [done|]. cbn [overwritten].
  destruct (key_of e) as [n|] eqn:He.
  - assert (named e = true) as Hne by (apply named_spec; eauto).
    rewrite (filter_cons_True _ e) by done. cbn [overwritten].
    rewrite He, <- IH.
    pose proof (last_pos_filter_named n E) as Hiff.
    destruct (last_pos n E) eqn:H1;
      destruct (last_pos n (filter (λ a, named a = true) E)) eqn:H2.
    + by rewrite filter_cons_True.
    + exfalso. destruct Hiff as [Hiff _]. by specialize (Hiff eq_refl).
    + exfalso. destruct Hiff as [_ Hiff]. by specialize (Hiff eq_refl).
    + rewrite filter_cons_True; [done|].
      apply named_spec. exists n. by apply written_key.
  - assert (named e = false) as Hne by (unfold named; by rewrite He).
    rewrite !filter_cons_False by congruence. apply IH.
Qed.

Lemma appended_filter_named E D :
  appended (filter (λ a, named a = true) E) D = appended E D.
Proof.
  unfold appended. f_equal. apply list_filter_iff. intros a.
  rewrite !is_new_spec. split; intros (n & Hn & Hnone); exists n;
    (split; [done|]); by apply last_pos_filter_named.
Qed.

Lemma filter_all {A} (P : A → Prop) `{∀ x, Decision (P x)} (l : list A) :
  (∀ x, x ∈ l → P x) → filter P l = l.
Proof.
  induction l as [|x l IH]; [done|]. intros Hall.
  rewrite filter_cons_True by (apply Hall; by left).
  f_equal. apply IH. intros y Hy. apply Hall. by right.
Qed.

Lemma appended_named E D :
  filter (λ a, named a = true) (appended E D) = appended E D.
Proof.
  apply filter_all.
  intros x (a & _ & (n & Hn & _)%is_new_spec & ->)%elem_of_appended.
  apply named_spec. exists n. by apply key_of_new_object.
Qed.

Lemma merge_filter_named E D :
  filter (λ a, named a = true) (mergeNoteAttributes E D) =
  mergeNoteAttributes (filter (λ a, named a = true) E) D.
Proof.
  rewrite !merge_closed, filter_app, overwritten_filter_named.
  by rewrite appended_named, appended_filter_named.
Qed.

(** *** The merged list, place by place *)

Lemma merge_take E D :
  take (length E) (mergeNoteAttributes E D) = overwritten D E.
Proof.
  rewrite merge_closed, take_app_length'; [done|]. by rewrite length_overwritten.
Qed.

Lemma merge_drop E D :
  drop (length E) (mergeNoteAttributes E D) = appended E D.
Proof.
  rewrite merge_closed, drop_app_length'; [done|]. by rewrite length_overwritten.
Qed.

Lemma merge_lookup_last E D n i a :
  last_pos n E = Some i → last_entry n D = Some a →
  mergeNoteAttributes E D !! i = Some (new_object a).
Proof.
  intros Hi Ha. pose proof (last_pos_lt _ _ _ Hi) as Hlt.
  rewrite merge_closed, lookup_app_l by (by rewrite length_overwritten).
  apply lookup_lt_is_Some_2 in Hlt as [e He].
  rewrite (overwritten_lookup_last D E n i e Hi He). unfold written.
  by rewrite Ha.
Qed.

Lemma merge_lookup_kept E D i e :
  E !! i = Some e →
  (∀ n, key_of e = Some n → last_pos n E ≠ Some i ∨ last_entry n D = None) →
  mergeNoteAttributes E D !! i = Some e.
Proof.
  intros He Hkept. pose proof (lookup_lt_Some _ _ _ He) as Hlt.
  rewrite merge_closed, lookup_app_l by (by rewrite length_overwritten).
  destruct (overwritten D E !! i) as [x|] eqn:Hx.
  - apply overwritten_lookup_cases in Hx as [?|(n & a & Hn & Ha & _)];
      [congruence|].
    exfalso. apply last_pos_Some in Hn as Hn'.
    destruct Hn' as [(e' & He' & Hk) _].
    assert (e' = e) as -> by congruence.
    destruct (Hkept n Hk); congruence.
  - apply lookup_ge_None in Hx. rewrite length_overwritten in Hx. lia.
Qed.

Lemma merge_contains_last E D n a :
  last_entry n D = Some a → new_object a ∈ mergeNoteAttributes E D.
Proof.
  intros Ha. destruct (last_pos n E) as [i|] eqn:Hi.
  - eapply list_elem_of_lookup_2. by eapply merge_lookup_last.
  - rewrite merge_closed. apply elem_of_app. right.
    apply elem_of_appended. exists a.
    split; [by eapply last_entry_elem|]. split; [|done].
    apply is_new_spec. exists n. split; [|done]. by eapply last_entry_key.
Qed.

Lemma elem_of_filter_wanted a D :
  a ∈ filter_wanted D ↔ a ∈ D ∧ ∃ n, opt_name a = Str n ∧ n ∈ wanted.
Proof.
  unfold filter_wanted. rewrite list_elem_of_filter. unfold wanted_has.
  split.
  - intros [Hw Ha]. split; [done|]. destruct (opt_name a) as [| |n]; try done.
    exists n. split; [done|]. by apply bool_decide_eq_true in Hw.
  - intros [Ha (n & -> & Hn)]. split; [|done]. by apply bool_decide_eq_true.
Qed.

Lemma elem_of_wanted n :
  n ∈ wanted ↔
  n = "Delivery-Location-Id" ∨ n = "Delivery-Date" ∨ n = "Checkout-Method".
Proof.
  unfold wanted. rewrite !elem_of_union, !elem_of_singleton. tauto.
Qed.

Lemma wanted_key a n :
  opt_name a = Str n → n ∈ wanted → key_of a = Some n.
Proof.
  intros Ha Hn. unfold key_of. rewrite Ha.
  apply elem_of_wanted in Hn as [-> | [-> | ->]]; done.
Qed.

End merge_facts.

(** * The merge over values of any kind *)

Example merge_any_null_value :
  mergeNoteAttributes_any
    [Some (AttrAny (Str "Delivery-Date") (VStr "old"))]
    [Some (AttrAny (Str "Delivery-Date") VNull);
     Some (AttrAny (Str "Checkout-Method") VUndefined)]
  = [Some (AttrAny (Str "Delivery-Date") (VStr ""));
     Some (AttrAny (Str "Checkout-Method") (VStr ""))].
Proof. vm_compute. reflexivity. Qed.

Section any_value_facts.

Local Open Scope list_scope.

Implicit Types (n : string) (a e x : entry_any) (out E D : list entry_any)
  (idx : gmap string nat).

Lemma opt_name_any_keyed a n : key_of_any a = Some n → opt_name_any a = Str n.
Proof.
  unfold key_of_any. destruct (opt_name_any a) as [| |s]; try done.
  destruct (truthy (Str s)); [|done]. by intros [= ->].
Qed.

Lemma key_of_new_object_any a n :
  key_of_any a = Some n → key_of_any (new_object_any a) = Some n.
Proof. unfold key_of_any, new_object_any. simpl. done. Qed.

(** The object written for a null or undefined value. *)
Lemma new_object_any_nullish a n :
  key_of_any a = Some n → is_nullish (opt_value_any a) = true →
  new_object_any a = Some (AttrAny (Str n) (VStr "")).
Proof.
  intros Hn Hv. unfold new_object_any. rewrite (opt_name_any_keyed a n Hn).
  by destruct (opt_value_any a).
Qed.

(** The value written is never null or undefined; it is the incoming value
    unless that one is. *)
Lemma new_object_any_value a :
  is_nullish (opt_value_any (new_object_any a)) = false
  ∧ (is_nullish (opt_value_any a) = true →
     opt_value_any (new_object_any a) = VStr "")
  ∧ (is_nullish (opt_value_any a) = false →
     opt_value_any (new_object_any a) = opt_value_any a).
Proof. unfold new_object_any. simpl. by destruct (opt_value_any a). Qed.

(** Every stored index points at an element with that name. *)
Lemma forEach_set_any_lookup l i idx n j :
  forEach_set_any i l idx !! n = Some j →
  idx !! n = Some j ∨ ∃ k e, j = i + k ∧ l !! k = Some e ∧ key_of_any e = Some n.
Proof.
  revert i idx. induction l as [|a l IH]; intros i idx; simpl; [by left|].
  intros [H|(k & e & -> & Hk & He)]%IH.
  - destruct (key_of_any a) as [m|] eqn:Ha; [|by left].
    destruct (decide (m = n)) as [->|Hm].
    + rewrite lookup_insert_eq in H. injection H as <-.
      right. exists 0, a. split; [lia|done].
    + rewrite lookup_insert_ne in H by done. by left.
  - right. exists (S k), e. split; [lia|done].
Qed.

Lemma index_any_lookup E n j :
  forEach_set_any 0 E ∅ !! n = Some j →
  ∃ e, E !! j = Some e ∧ key_of_any e = Some n.
Proof.
  intros [H|(k & e & -> & Hk & He)]%forEach_set_any_lookup; [done|]. eauto.
Qed.

Lemma forEach_set_any_lookup_None l i idx n :
  forEach_set_any i l idx !! n = None →
  idx !! n = None ∧ ∀ e, e ∈ l → key_of_any e ≠ Some n.
Proof.
  revert i idx. induction l as [|a l IH]; intros i idx; simpl.
  - intros H. split; [done|]. intros e He. by apply elem_of_nil in He.
  - intros [H Hl]%IH. destruct (key_of_any a) as [m|] eqn:Ha.
    + apply lookup_insert_None in H as [H Hm]. split; [done|].
      intros e [->|He]%elem_of_cons; [congruence|by apply Hl].
    + split; [done|].
      intros e [->|He]%elem_of_cons; [congruence|by apply Hl].
Qed.

Lemma index_any_None E n :
  forEach_set_any 0 E ∅ !! n = None → ∀ e, e ∈ E → key_of_any e ≠ Some n.
Proof. by intros [_ H]%forEach_set_any_lookup_None. Qed.

Lemma index_any_in_range E n j :
  forEach_set_any 0 E ∅ !! n = Some j → j < length E.
Proof.
  intros (e & He & _)%index_any_lookup. by eapply lookup_lt_Some.
Qed.

Lemma index_any_apart E n m i j :
  forEach_set_any 0 E ∅ !! n = Some i → forEach_set_any 0 E ∅ !! m = Some j →
  n ≠ m → i ≠ j.
Proof.
  intros (e & He & Hk)%index_any_lookup (e' & He' & Hk')%index_any_lookup Hnm ->.
  congruence.
Qed.

(** One step of the loop. *)
Lemma upsert_any_keyed idx out a n :
  key_of_any a = Some n →
  upsert_any idx out a =
  match idx !! n with
  | None => out ++ [new_object_any a]
  | Some i => <[i := new_object_any a]> out
  end.
Proof. intros Hn. unfold upsert_any. by rewrite Hn. Qed.

Lemma length_upsert_any idx out a : (length out ≤ length (upsert_any idx out a))%nat.
Proof.
  unfold upsert_any. destruct (key_of_any a) as [n|]; [|done].
  destruct (idx !! n).
  - by rewrite length_insert.
  - rewrite length_app. lia.
Qed.

Lemma length_foldl_upsert_any idx out D :
  (length out ≤ length (foldl (upsert_any idx) out D))%nat.
Proof.
  revert out. induction D as [|a D IH]; intros out; simpl; [done|].
  etrans; [apply (length_upsert_any idx out a)|apply IH].
Qed.

(** Where the elements of the result come from. *)
Lemma foldl_upsert_any_lookup idx out D i x :
  foldl (upsert_any idx) out D !! i = Some x →
  out !! i = Some x
  ∨ ∃ a n, a ∈ D ∧ key_of_any a = Some n ∧ x = new_object_any a.
Proof.
  revert out. induction D as [|a D IH]; intros out; simpl; [by left|].
  intros [H|(b & n & Hb & Hn & ->)]%IH.
  - unfold upsert_any in H. destruct (key_of_any a) as [n|] eqn:Ha; [|by left].
    destruct (idx !! n) as [j|].
    + apply list_lookup_insert_Some in H as [(-> & <- & _)|[_ H]]; [|by left].
      right. exists a, n. split; [by left|done].
    + apply lookup_app_Some in H as [H|[_ H]]; [by left|].
      right. exists a, n. split; [by left|].
      destruct (i - length out) as [|?]; simpl in H; [|done]. by injection H.
  - right. exists b, n. split; [by right|done].
Qed.

Lemma merge_any_lookup_cases E D i x :
  mergeNoteAttributes_any E D !! i = Some x →
  E !! i = Some x
  ∨ ∃ a n, a ∈ D ∧ key_of_any a = Some n ∧ x = new_object_any a.
Proof. apply foldl_upsert_any_lookup. Qed.

(** An element stays where it is while no later element has its name, when
    it stands at the index of its name or behind the existing elements. *)
Lemma foldl_upsert_any_keeps E out D k x n :
  out !! k = Some x →
  (length E ≤ length out)%nat →
  forEach_set_any 0 E ∅ !! n = Some k ∨ (length E ≤ k)%nat →
  (∀ b, b ∈ D → key_of_any b ≠ Some n) →
  foldl (upsert_any (forEach_set_any 0 E ∅)) out D !! k = Some x.
Proof.
  revert out. induction D as [|b D IH]; intros out Hk Hlen Hpos Hn; simpl;
    [done|].
  apply IH.
  - unfold upsert_any. destruct (key_of_any b) as [m|] eqn:Hb; [|done].
    destruct (forEach_set_any 0 E ∅ !! m) as [j|] eqn:Hj.
    + rewrite list_lookup_insert_ne; [done|].
      destruct Hpos as [Hpos|Hpos].
      * eapply index_any_apart; [done..|]. intros ->.
        by apply (Hn b); [left|].
      * apply index_any_in_range in Hj. lia.
    + by apply lookup_app_l_Some.
  - etrans; [done|apply length_upsert_any].
  - done.
  - intros c Hc. apply Hn. by right.
Qed.

(** The object written for the last incoming element of a name is in the
    merged list: at the index of the name, or behind the existing
    elements. *)
Lemma merge_any_contains_last E D1 a D2 n :
  key_of_any a = Some n → (∀ b, b ∈ D2 → key_of_any b ≠ Some n) →
  ∃ k, mergeNoteAttributes_any E (D1 ++ a :: D2) !! k = Some (new_object_any a)
       ∧ ((∃ e, E !! k = Some e ∧ key_of_any e = Some n)
          ∨ ((length E ≤ k)%nat ∧ ∀ e, e ∈ E → key_of_any e ≠ Some n)).
Proof.
  intros Hn Hlast. unfold mergeNoteAttributes_any.
  rewrite foldl_app. simpl.
  set (idx := forEach_set_any 0 E ∅).
  pose proof (length_foldl_upsert_any idx E D1) as Hlen.
  set (out := foldl (upsert_any idx) E D1) in *.
  rewrite (upsert_any_keyed idx out a n Hn).
  destruct (idx !! n) as [i|] eqn:Hi.
  - exists i. split; [|left; by apply index_any_lookup].
    apply (foldl_upsert_any_keeps E _ D2 i _ n); [| |by left|done].
    + apply list_lookup_insert_eq. apply index_any_in_range in Hi. lia.
    + by rewrite length_insert.
  - exists (length out). split; [|right; split; [done|by apply index_any_None]].
    apply (foldl_upsert_any_keeps E _ D2 (length out) _ n); [| |by right|done].
    + by apply list_lookup_middle.
    + rewrite length_app. lia.
Qed.

(** On values that are absent, null or strings the loop is the merge of the
    first embedding. *)
Lemma key_of_any_widen (a : entry) : key_of_any (widen_entry a) = key_of a.
Proof. by destruct a as [[nm v]|]. Qed.

Lemma new_object_any_widen (a : entry) :
  new_object_any (widen_entry a) = widen_entry (new_object a).
Proof. destruct a as [[nm [| |s]]|]; done. Qed.

Lemma forEach_set_any_widen (l : list entry) i idx :
  forEach_set_any i (widen_entry <$> l) idx = forEach_set i l idx.
Proof.
  revert i idx. induction l as [|a l IH]; intros i idx; csimpl; [done|].
  by rewrite key_of_any_widen, IH.
Qed.

Lemma upsert_any_widen idx (out : list entry) (a : entry) :
  upsert_any idx (widen_entry <$> out) (widen_entry a)
  = widen_entry <$> upsert idx out a.
Proof.
  unfold upsert_any, upsert. rewrite key_of_any_widen.
  destruct (key_of a) as [n|]; [|done].
  rewrite new_object_any_widen. destruct (idx !! n) as [i|].
  - by rewrite list_fmap_insert.
  - by rewrite fmap_app.
Qed.

Lemma merge_any_widen (E D : list entry) :
  mergeNoteAttributes_any (widen_entry <$> E) (widen_entry <$> D)
  = widen_entry <$> mergeNoteAttributes E D.
Proof.
  unfold mergeNoteAttributes_any, mergeNoteAttributes.
  rewrite forEach_set_any_widen.
  generalize (forEach_set 0 E ∅) as idx. intros idx.
  generalize E as out.
  induction D as [|a D IH]; intros out; csimpl; [done|].
  by rewrite upsert_any_widen, IH.
Qed.

End any_value_facts.

(** * Properties of the handler *)

(** A complete run of each revision in the sample world. *)
Example sample_run_writes_the_merge :
  run (RevB.handler (sample_world wholesale_order) sample_request) =
  ({| status := 200; text := "Done" |},
   [GET_order (IdNum 1); GET_draft (IdNum 7);
    PUT_order (IdNum 1)
      [Some (Attr (Str "Gift") (Str "yes"));
       Some (Attr (Str "Delivery-Date") (Str "2024-05-01"))]]).
Proof. vm_compute. reflexivity. Qed.

Example sample_run_untagged :
  run (RevA.handler (sample_world retail_order) sample_request) =
  ({| status := 200; text := "Done" |},
   [GET_order (IdNum 1); GET_draft (IdNum 7);
    PUT_order (IdNum 1)
      [Some (Attr (Str "Delivery-Date") (Str "2024-05-01"))]]).
Proof. vm_compute. reflexivity. Qed.

Example sample_body_text :
  sample_body = String "{" (String quote_char "id")
                ++ String quote_char ":1}".
Proof. vm_compute. reflexivity. Qed.

Section auth_facts.

Lemma N_of_ascii_inj x y : N_of_ascii x = N_of_ascii y → x = y.
Proof.
  intros H. rewrite <- (ascii_N_embedding x), <- (ascii_N_embedding y).
  by rewrite H.
Qed.

Lemma xor_accumulate_zero ab bb acc :
  length ab = length bb →
  xor_accumulate acc ab bb = 0%N ↔ acc = 0%N ∧ ab = bb.
Proof.
  revert bb acc. induction ab as [|x ab IH]; intros [|y bb] acc; simpl;
    try done.
  - intros _. split; [done|]. by intros [-> _].
  - intros [= Hlen]. rewrite (IH bb _ Hlen), N.lor_eq_0_iff, N.lxor_eq_0_iff.
    split.
    + intros [[-> ->%N_of_ascii_inj] ->]. done.
    + intros [-> [= -> ->]]. done.
Qed.

Lemma Buffer_from_inj s t : Buffer_from s = Buffer_from t → s = t.
Proof.
  unfold Buffer_from. intros H.
  rewrite <- (String.string_of_list_ascii_of_string s),
          <- (String.string_of_list_ascii_of_string t).
  by rewrite H.
Qed.

(** The comparison accepts exactly the equal strings. *)
Lemma timingSafeEqual_true a b :
  timingSafeEqual a b = true ↔ or_empty_string a = or_empty_string b.
Proof.
  unfold timingSafeEqual, crypto_timingSafeEqual.
  destruct (Nat.eqb_spec (length (Buffer_from (or_empty_string a)))
                         (length (Buffer_from (or_empty_string b)))) as [Hlen|Hlen];
    simpl.
  - rewrite N.eqb_eq, (xor_accumulate_zero _ _ _ Hlen). split.
    + intros [_ ?]. by apply Buffer_from_inj.
    + intros ->. done.
  - split; [done|]. intros H. by rewrite H in Hlen.
Qed.


Lemma not_string_true s : not_string s = true ↔ missing s.
Proof.
  unfold not_string, missing. destruct s as [s|].
  - rewrite String.eqb_eq. split; [intros ->; by right|]. by intros [|[= ->]].
  - split; [by left|done].
Qed.

Lemma authenticated_false w req :
  authenticated w req = false ↔ authentication_fails w req.
Proof.
  unfold authenticated, authentication_fails.
  destruct (not_string (WEBHOOK_SECRET w)) eqn:Hs; simpl.
  { apply not_string_true in Hs. split; [by left|done]. }
  destruct (not_string (hmac_header req)) eqn:Hh; simpl.
  { apply not_string_true in Hh. split; [by (right; left)|done]. }
  assert (¬ missing (WEBHOOK_SECRET w)) as Hs'.
  { rewrite <- not_string_true. congruence. }
  assert (¬ missing (hmac_header req)) as Hh'.
  { rewrite <- not_string_true. congruence. }
  destruct (timingSafeEqual _ _) eqn:Heq.
  - apply timingSafeEqual_true in Heq. split; [done|].
    intros [?|[?|Hne]]; [done..|]. exfalso. apply Hne.
    destruct (hmac_header req) as [h|]; simpl in *; [by subst|].
    exfalso. apply Hh'. by left.
  - split; [|done]. intros _. right. right. intros Heq'.
    rewrite <- Heq' in Heq.
    assert (timingSafeEqual (Some (hmac_sha256_base64 w
              (or_empty_string (WEBHOOK_SECRET w)) (raw_body req)))
              (Some (hmac_sha256_base64 w
              (or_empty_string (WEBHOOK_SECRET w)) (raw_body req))) = true)
      by (by apply timingSafeEqual_true).
    congruence.
Qed.

End auth_facts.

Section handler_facts.

Implicit Types (w : world) (req : request).

Lemma authenticated_true w req :
  authenticated w req = true →
  not_string (WEBHOOK_SECRET w) || not_string (hmac_header req) = false
  ∧ timingSafeEqual
      (Some (hmac_sha256_base64 w (or_empty_string (WEBHOOK_SECRET w))
               (raw_body req)))
      (hmac_header req) = true.
Proof.
  unfold authenticated. intros [H1 H2]%andb_true_iff.
  by apply negb_true_iff in H1.
Qed.

Lemma method_POST req : negb (method req =? "POST") = false ↔ method req = "POST".
Proof. by rewrite negb_false_iff, String.eqb_eq. Qed.

Ltac run_out :=
  unfold run, send, shopifyGET_order, shopifyGET_draft, shopifyPUT, issue,
    mbind, mret, Act_bind, Act_ret; simpl.

Ltac split_first_steps w req :=
  cbv zeta;
  destruct (negb (method req =? "POST")) eqn:Hm;
  [ left; split; [intros HP; apply method_POST in HP; congruence | done]
  | apply method_POST in Hm; right;
    destruct (authenticated w req) eqn:Ha;
    [ right; apply authenticated_true in Ha as [H1 H2]; rewrite H1, H2;
      simpl;
      destruct (JSON_parse w (raw_body req)) as [o|] eqn:Hp;
      [ right; repeat split; [done | by eexists |];
        run_out; repeat case_match; done
      | left; done ]
    | left; repeat split; [done | ..];
      unfold authenticated in Ha;
      destruct (not_string (WEBHOOK_SECRET w) || not_string (hmac_header req));
      simpl in *; [done | by rewrite Ha | done | by rewrite Ha] ] ].

(** The outcome of a run, by the step that ends it, up to the parsed
    body. *)
Lemma RevA_first_steps w req :
  first_steps w req (run (RevA.handler w req)).
Proof. unfold first_steps, RevA.handler. split_first_steps w req. Qed.

Lemma RevB_first_steps w req :
  first_steps w req (run (RevB.handler w req)).
Proof. unfold first_steps, RevB.handler. split_first_steps w req. Qed.

Lemma not_fails_authenticated w req :
  ¬ authentication_fails w req → authenticated w req = true.
Proof.
  rewrite <- authenticated_false. by destruct (authenticated w req).
Qed.

(** A run that reaches the order fetch: the checks passed so far are
    rewritten away. *)
Ltac reach_order :=
  match goal with
  | Hm : method _ = "POST", Ha : ¬ authentication_fails _ _,
    Hp : JSON_parse _ _ = Some _, Hid : truthy_id _ = true,
    Hok : ok _ = true |- _ =>
      apply not_fails_authenticated, authenticated_true in Ha as [H1 H2];
      unfold RevA.handler, RevB.handler;
      rewrite Hm, H1, H2, Hp; simpl; rewrite Hid; simpl; run_out;
      rewrite Hok; simpl
  end.

Lemma RevA_no_draft_link w req o :
  method req = "POST" → ¬ authentication_fails w req →
  JSON_parse w (raw_body req) = Some o → truthy_id (event_id o) = true →
  ok (orders w (event_id o)) = true →
  truthy_id (order_draft_id (json (orders w (event_id o)))) = false →
  run (RevA.handler w req) =
  ({| status := 200; text := "No draft link" |}, [GET_order (event_id o)]).
Proof. intros Hm Ha Hp Hid Hok Hd. reach_order. by rewrite Hd. Qed.

Lemma RevB_not_tagged w req o :
  method req = "POST" → ¬ authentication_fails w req →
  JSON_parse w (raw_body req) = Some o → truthy_id (event_id o) = true →
  ok (orders w (event_id o)) = true →
  includes (toLowerCase (order_tags (json (orders w (event_id o)))))
    "samita-wholesale" = false →
  run (RevB.handler w req) =
  ({| status := 200; text := "Not a Samita order" |},
   [GET_order (event_id o)]).
Proof. intros Hm Ha Hp Hid Hok Ht. reach_order. by rewrite Ht. Qed.

Lemma RevB_tagged w req o :
  method req = "POST" → ¬ authentication_fails w req →
  JSON_parse w (raw_body req) = Some o → truthy_id (event_id o) = true →
  ok (orders w (event_id o)) = true →
  includes (toLowerCase (order_tags (json (orders w (event_id o)))))
    "samita-wholesale" = true →
  run (RevB.handler w req) = run (RevA.handler w req).
Proof. intros Hm Ha Hp Hid Hok Ht. reach_order. by rewrite Ht. Qed.

Lemma RevA_draft_fetched w req o :
  method req = "POST" → ¬ authentication_fails w req →
  JSON_parse w (raw_body req) = Some o → truthy_id (event_id o) = true →
  ok (orders w (event_id o)) = true →
  truthy_id (order_draft_id (json (orders w (event_id o)))) = true →
  ∃ rest, (run (RevA.handler w req)).2 =
    GET_order (event_id o)
    :: GET_draft (order_draft_id (json (orders w (event_id o)))) :: rest.
Proof.
  intros Hm Ha Hp Hid Hok Hd. reach_order. rewrite Hd. simpl.
  repeat case_match; simpl; by eexists.
Qed.

Lemma RevA_reply_listed w req : (run (RevA.handler w req)).1 ∈ replies.
Proof.
  unfold RevA.handler, replies. run_out.
  repeat case_match; simpl; rewrite !elem_of_cons; tauto.
Qed.

Lemma RevB_reply_listed w req : (run (RevB.handler w req)).1 ∈ replies.
Proof.
  unfold RevB.handler, replies. run_out.
  repeat case_match; simpl; rewrite !elem_of_cons; tauto.
Qed.

(** The answer to the write is never read. *)
Lemma RevA_ignores_put w req put :
  run (RevA.handler (with_put w put) req) = run (RevA.handler w req).
Proof. unfold RevA.handler. run_out. repeat case_match; done. Qed.

Lemma RevB_ignores_put w req put :
  run (RevB.handler (with_put w put) req) = run (RevB.handler w req).
Proof. unfold RevB.handler. run_out. repeat case_match; done. Qed.

Ltac find_put H :=
  repeat (apply elem_of_cons in H as [H|H]; [try discriminate|]);
  try (by apply elem_of_nil in H); try (injection H as -> ->).

(** What is written is the merge of the fetched order attributes and the
    filtered attributes of the fetched draft. *)
Lemma RevA_put_payload w req i m :
  PUT_order i m ∈ (run (RevA.handler w req)).2 →
  m = mergeNoteAttributes
        (order_attributes (json (orders w i)))
        (filter_wanted (draft_attributes
           (json (draft_orders w (order_draft_id (json (orders w i))))))).
Proof.
  unfold RevA.handler. run_out.
  repeat case_match; simpl; intros Hin;
    try (by apply elem_of_nil in Hin); find_put Hin; done.
Qed.

Lemma RevB_put_payload w req i m :
  PUT_order i m ∈ (run (RevB.handler w req)).2 →
  m = mergeNoteAttributes
        (order_attributes (json (orders w i)))
        (filter_wanted (draft_attributes
           (json (draft_orders w (order_draft_id (json (orders w i))))))).
Proof.
  unfold RevB.handler. run_out.
  repeat case_match; simpl; intros Hin;
    try (by apply elem_of_nil in Hin); find_put Hin; done.
Qed.

Lemma authenticated_not_fails w req :
  authenticated w req = true → ¬ authentication_fails w req.
Proof. rewrite <- authenticated_false. congruence. Qed.

(** What the first steps say about the status. *)
Lemma first_steps_status w req r :
  first_steps w req r →
  (status r.1 = 200 ∨ status r.1 = 401 ∨ status r.1 = 400)
  ∧ (status r.1 = 401 ↔ method req = "POST" ∧ authentication_fails w req)
  ∧ (status r.1 = 401 ∧ r.2 = [] ↔
       method req = "POST" ∧ authentication_fails w req)
  ∧ (status r.1 = 400 ↔
       method req = "POST" ∧ ¬ authentication_fails w req
       ∧ JSON_parse w (raw_body req) = None)
  ∧ (status r.1 = 200 ↔
       method req ≠ "POST"
       ∨ (¬ authentication_fails w req
          ∧ ∃ o, JSON_parse w (raw_body req) = Some o)).
Proof.
  intros [[Hm ->]|[(Hm & Ha & Hs & Hc)|[(Hm & Ha & Hp & ->)|(Hm & Ha & Hp & Hs)]]].
  - simpl. intuition (try discriminate; try congruence).
  - apply authenticated_false in Ha. rewrite Hs, Hc.
    intuition (try discriminate; try congruence).
  - apply authenticated_not_fails in Ha. simpl.
    assert ((∃ o, JSON_parse w (raw_body req) = Some o) → False) as Hno
      by (intros [o Ho]; congruence).
    intuition (try discriminate; try congruence).
  - apply authenticated_not_fails in Ha. rewrite Hs. destruct Hp as [o Ho].
    intuition (try discriminate; try congruence; eauto).
Qed.

Lemma RevA_status_policy w req : status_policy RevA.handler w req.
Proof.
  pose proof (first_steps_status w req _ (RevA_first_steps w req))
    as (H1 & H2 & _ & H3 & H4).
  unfold status_policy. cbv zeta.
  split; [apply RevA_reply_listed|]. repeat (split; [done|]).
  intros put. apply RevA_ignores_put.
Qed.

Lemma RevB_status_policy w req : status_policy RevB.handler w req.
Proof.
  pose proof (first_steps_status w req _ (RevB_first_steps w req))
    as (H1 & H2 & _ & H3 & H4).
  unfold status_policy. cbv zeta.
  split; [apply RevB_reply_listed|]. repeat (split; [done|]).
  intros put. apply RevB_ignores_put.
Qed.

End handler_facts.

(** * Runs in which a call does not answer *)

Section net_facts.

Implicit Types (w : world) (f : faults) (req : request) (o : option event).

Ltac run_out :=
  unfold run, send, shopifyGET_order, shopifyGET_draft, shopifyPUT, issue,
    mbind, mret, Act_bind, Act_ret; simpl.

Ltac try_out :=
  unfold run_try, send_reply, await_fetch, await_json, await_readRawBody,
    mbind, mret, Try_bind, Try_ret; simpl.

Ltac walk :=
  repeat (match goal with
          | |- context [match JSON_parse ?w ?r with _ => _ end] =>
              destruct (JSON_parse w r) eqn:?
          | |- context [if ?b then _ else _] => destruct b eqn:?
          end; simpl).

Lemma RevA_net_resolved w f req r c :
  run_try (RevA_net.handler w f req) = (resolved r, c) →
  run (RevA.handler w req) = (r, c).
Proof.
  unfold RevA_net.handler, RevA.handler. try_out. run_out.
  destruct (negb _); [by intros [= <- <-]|].
  destruct (body_read_rejects f); simpl; [done|].
  walk; intros [= <- <-]; done.
Qed.

Lemma RevB_net_resolved w f req r c :
  run_try (RevB_net.handler w f req) = (resolved r, c) →
  run (RevB.handler w req) = (r, c).
Proof.
  unfold RevB_net.handler, RevB.handler. try_out. run_out.
  destruct (negb _); [by intros [= <- <-]|].
  destruct (body_read_rejects f); simpl; [done|].
  walk; intros [= <- <-]; done.
Qed.

Lemma RevA_net_no_faults w req :
  run_try (RevA_net.handler w no_faults req) =
  (resolved (run (RevA.handler w req)).1, (run (RevA.handler w req)).2).
Proof.
  unfold RevA_net.handler, RevA.handler. try_out. run_out.
  destruct (negb _); [done|]. simpl. walk; done.
Qed.

Lemma RevB_net_no_faults w req :
  run_try (RevB_net.handler w no_faults req) =
  (resolved (run (RevB.handler w req)).1, (run (RevB.handler w req)).2).
Proof.
  unfold RevB_net.handler, RevB.handler. try_out. run_out.
  destruct (negb _); [done|]. simpl. walk; done.
Qed.

Lemma RevB_net_tagged w f req o :
  method req = "POST" → body_read_rejects f = false →
  ¬ authentication_fails w req →
  JSON_parse w (raw_body req) = Some o → truthy_id (event_id o) = true →
  tagged w o = true →
  run_try (RevB_net.handler w f req) = run_try (RevA_net.handler w f req).
Proof.
  intros Hm Hb Ha Hp Hid Ht.
  apply not_fails_authenticated, authenticated_true in Ha as [H1 H2].
  unfold tagged, fullOrder_of in Ht.
  unfold RevA_net.handler, RevB_net.handler.
  rewrite Hm. try_out. rewrite Hb, H1, H2, Hp. simpl. rewrite Hid. simpl.
  destruct (order_fetch_rejects f (event_id o)); [done|].
  destruct (negb (ok (orders w (event_id o)))); [done|].
  destruct (order_json_rejects f (event_id o)); [done|].
  by rewrite Ht.
Qed.

Lemma RevA_net_order_fetch_rejects w f req o :
  method req = "POST" → body_read_rejects f = false →
  ¬ authentication_fails w req →
  JSON_parse w (raw_body req) = Some o → truthy_id (event_id o) = true →
  order_fetch_rejects f (event_id o) = true →
  run_try (RevA_net.handler w f req) = (rejected, [GET_order (event_id o)]).
Proof.
  intros Hm Hb Ha Hp Hid Hrej.
  apply not_fails_authenticated, authenticated_true in Ha as [H1 H2].
  unfold RevA_net.handler.
  rewrite Hm. try_out. rewrite Hb, H1, H2, Hp. simpl. rewrite Hid. simpl.
  by rewrite Hrej.
Qed.

Lemma RevB_net_order_fetch_rejects w f req o :
  method req = "POST" → body_read_rejects f = false →
  ¬ authentication_fails w req →
  JSON_parse w (raw_body req) = Some o → truthy_id (event_id o) = true →
  order_fetch_rejects f (event_id o) = true →
  run_try (RevB_net.handler w f req) = (rejected, [GET_order (event_id o)]).
Proof.
  intros Hm Hb Ha Hp Hid Hrej.
  apply not_fails_authenticated, authenticated_true in Ha as [H1 H2].
  unfold RevB_net.handler.
  rewrite Hm. try_out. rewrite Hb, H1, H2, Hp. simpl. rewrite Hid. simpl.
  by rewrite Hrej.
Qed.

Lemma RevA_net_order_json_rejects w f req o :
  method req = "POST" → body_read_rejects f = false →
  ¬ authentication_fails w req →
  JSON_parse w (raw_body req) = Some o → truthy_id (event_id o) = true →
  order_fetch_rejects f (event_id o) = false →
  ok (orders w (event_id o)) = true →
  order_json_rejects f (event_id o) = true →
  run_try (RevA_net.handler w f req) = (rejected, [GET_order (event_id o)]).
Proof.
  intros Hm Hb Ha Hp Hid Hof Hok Hoj.
  apply not_fails_authenticated, authenticated_true in Ha as [H1 H2].
  unfold RevA_net.handler.
  rewrite Hm. try_out. rewrite Hb, H1, H2, Hp. simpl. rewrite Hid. simpl.
  rewrite Hof, Hok. simpl. by rewrite Hoj.
Qed.

Lemma RevB_net_order_json_rejects w f req o :
  method req = "POST" → body_read_rejects f = false →
  ¬ authentication_fails w req →
  JSON_parse w (raw_body req) = Some o → truthy_id (event_id o) = true →
  order_fetch_rejects f (event_id o) = false →
  ok (orders w (event_id o)) = true →
  order_json_rejects f (event_id o) = true →
  run_try (RevB_net.handler w f req) = (rejected, [GET_order (event_id o)]).
Proof.
  intros Hm Hb Ha Hp Hid Hof Hok Hoj.
  apply not_fails_authenticated, authenticated_true in Ha as [H1 H2].
  unfold RevB_net.handler.
  rewrite Hm. try_out. rewrite Hb, H1, H2, Hp. simpl. rewrite Hid. simpl.
  rewrite Hof, Hok. simpl. by rewrite Hoj.
Qed.

Lemma RevA_net_draft_read_rejects w f req o :
  method req = "POST" → body_read_rejects f = false →
  ¬ authentication_fails w req →
  JSON_parse w (raw_body req) = Some o → truthy_id (event_id o) = true →
  order_fetch_rejects f (event_id o) = false →
  ok (orders w (event_id o)) = true →
  order_json_rejects f (event_id o) = false →
  truthy_id (draftId_of w o) = true →
  draft_fetch_rejects f (draftId_of w o) = true
  ∨ (draft_fetch_rejects f (draftId_of w o) = false
     ∧ ok (draft_orders w (draftId_of w o)) = true
     ∧ draft_json_rejects f (draftId_of w o) = true) →
  run_try (RevA_net.handler w f req) =
  (rejected, [GET_order (event_id o); GET_draft (draftId_of w o)]).
Proof.
  intros Hm Hb Ha Hp Hid Hof Hok Hoj Hd Hrej.
  apply not_fails_authenticated, authenticated_true in Ha as [H1 H2].
  unfold draftId_of, fullOrder_of in *.
  unfold RevA_net.handler.
  rewrite Hm. try_out. rewrite Hb, H1, H2, Hp. simpl. rewrite Hid. simpl.
  rewrite Hof, Hok. simpl. rewrite Hoj, Hd. simpl.
  destruct Hrej as [Hdf|(Hdf & Hdok & Hdj)]; rewrite Hdf; [done|].
  rewrite Hdok. simpl. by rewrite Hdj.
Qed.

Lemma RevA_net_body_read_rejects w f req :
  method req = "POST" → body_read_rejects f = true →
  run_try (RevA_net.handler w f req) = (rejected, []).
Proof.
  intros Hm Hb. unfold RevA_net.handler. rewrite Hm. try_out. by rewrite Hb.
Qed.

Lemma RevB_net_body_read_rejects w f req :
  method req = "POST" → body_read_rejects f = true →
  run_try (RevB_net.handler w f req) = (rejected, []).
Proof.
  intros Hm Hb. unfold RevB_net.handler. rewrite Hm. try_out. by rewrite Hb.
Qed.

(** Once both reads answered, the run is decided by the lists and by the
    write. *)
Lemma RevA_net_after_reads w f req o :
  method req = "POST" → body_read_rejects f = false →
  ¬ authentication_fails w req →
  JSON_parse w (raw_body req) = Some o → truthy_id (event_id o) = true →
  order_fetch_rejects f (event_id o) = false →
  ok (orders w (event_id o)) = true →
  order_json_rejects f (event_id o) = false →
  truthy_id (draftId_of w o) = true →
  draft_fetch_rejects f (draftId_of w o) = false →
  ok (draft_orders w (draftId_of w o)) = true →
  draft_json_rejects f (draftId_of w o) = false →
  run_try (RevA_net.handler w f req) =
  if decide (draftAttrs_of w o = []) then
    (resolved {| status := 200; text := "No Zapiet attrs on draft" |},
     [GET_order (event_id o); GET_draft (draftId_of w o)])
  else if negb (differs (existing_of w o) (merged_of w o)) then
    (resolved {| status := 200; text := "No changes needed" |},
     [GET_order (event_id o); GET_draft (draftId_of w o)])
  else
    (if put_rejects f (event_id o) (merged_of w o) then rejected
     else resolved {| status := 200; text := "Done" |},
     [GET_order (event_id o); GET_draft (draftId_of w o);
      PUT_order (event_id o) (merged_of w o)]).
Proof.
  intros Hm Hb Ha Hp Hid Hof Hok Hoj Hd Hdf Hdok Hdj.
  apply not_fails_authenticated, authenticated_true in Ha as [H1 H2].
  unfold merged_of, existing_of, draftAttrs_of, draftId_of, fullOrder_of in *.
  unfold RevA_net.handler.
  rewrite Hm. try_out. rewrite Hb, H1, H2, Hp. simpl. rewrite Hid. simpl.
  rewrite Hof, Hok. simpl. rewrite Hoj, Hd. simpl. rewrite Hdf, Hdok. simpl.
  rewrite Hdj.
  destruct (decide (filter_wanted _ = [])) as [->|Hne]; [done|].
  destruct (filter_wanted _) as [|a F] eqn:HF; [done|]. simpl.
  destruct (differs _ _); simpl; [|done].
  by destruct (put_rejects _ _ _).
Qed.

Lemma RevA_net_put_rejects w f req o :
  method req = "POST" → body_read_rejects f = false →
  ¬ authentication_fails w req →
  JSON_parse w (raw_body req) = Some o → truthy_id (event_id o) = true →
  order_fetch_rejects f (event_id o) = false →
  ok (orders w (event_id o)) = true →
  order_json_rejects f (event_id o) = false →
  truthy_id (draftId_of w o) = true →
  draft_fetch_rejects f (draftId_of w o) = false →
  ok (draft_orders w (draftId_of w o)) = true →
  draft_json_rejects f (draftId_of w o) = false →
  draftAttrs_of w o ≠ [] →
  differs (existing_of w o) (merged_of w o) = true →
  put_rejects f (event_id o) (merged_of w o) = true →
  run_try (RevA_net.handler w f req) =
  (rejected,
   [GET_order (event_id o); GET_draft (draftId_of w o);
    PUT_order (event_id o) (merged_of w o)]).
Proof.
  intros Hm Hb Ha Hp Hid Hof Hok Hoj Hd Hdf Hdok Hdj Hne Hdiff Hput.
  rewrite (RevA_net_after_reads w f req o) by done.
  rewrite decide_False by done. by rewrite Hdiff, Hput.
Qed.

(** What a reply of a run that may throw looks like. *)
Lemma net_reply_policy w f req r c :
  run_try (RevA_net.handler w f req) = (resolved r, c)
  ∨ run_try (RevB_net.handler w f req) = (resolved r, c) →
  r ∈ replies
  ∧ (status r = 200 ∨ status r = 401 ∨ status r = 400)
  ∧ (status r = 401 ↔ method req = "POST" ∧ authentication_fails w req)
  ∧ (status r = 400 ↔
       method req = "POST" ∧ ¬ authentication_fails w req
       ∧ JSON_parse w (raw_body req) = None)
  ∧ (status r = 200 ↔
       method req ≠ "POST"
       ∨ (¬ authentication_fails w req
          ∧ ∃ o, JSON_parse w (raw_body req) = Some o)).
Proof.
  intros [H%RevA_net_resolved|H%RevB_net_resolved].
  - destruct (RevA_status_policy w req) as (H1 & H2 & H3 & H4 & H5 & _).
    rewrite H in *. done.
  - destruct (RevB_status_policy w req) as (H1 & H2 & H3 & H4 & H5 & _).
    rewrite H in *. done.
Qed.

(** The answer to the write is never read. *)
Lemma RevA_net_ignores_put w f req put :
  run_try (RevA_net.handler (with_put w put) f req)
  = run_try (RevA_net.handler w f req).
Proof.
  unfold RevA_net.handler. try_out.
  destruct (negb _); [done|]. simpl. walk; done.
Qed.

End net_facts.

(** * The claims *)

(** C1.  On every existing list and every allow-list-filtered draft list the
    merge is an upsert keyed by name: the first [length existing] places keep
    the names they had, in place; an existing element whose name no draft
    attribute carries is unchanged; the last existing element of a name some
    draft attribute carries holds that name with the value of the last such
    draft attribute; nothing is appended under a name the existing list has;
    the draft attributes whose name is new follow at the end, in incoming
    order, one element for each of them.  The two examples of the
    specification evaluate as stated. *)
Theorem merge_is_name_keyed_upsert (E D0 : list entry) :
  let D := filter_wanted D0 in
  let M := mergeNoteAttributes E D in
  opt_name <$> take (length E) M = opt_name <$> E
  ∧ (∀ i e, E !! i = Some e → (∀ a, a ∈ D → opt_name a ≠ opt_name e) →
       M !! i = Some e)
  ∧ (∀ n i a, last_pos n E = Some i → last_entry n D = Some a →
       M !! i = Some (Some {| name := Str n; value := or_empty (opt_value a) |}))
  ∧ (∀ x n, x ∈ drop (length E) M → key_of x = Some n → last_pos n E = None)
  ∧ drop (length E) M = new_object <$> filter (λ a, is_new E a = true) D
  ∧ mergeNoteAttributes
      [Some (Attr (Str "Gift") (Str "yes"))]
      [Some (Attr (Str "Delivery-Date") (Str "2024-05-01"))]
    = [Some (Attr (Str "Gift") (Str "yes"));
       Some (Attr (Str "Delivery-Date") (Str "2024-05-01"))]
  ∧ mergeNoteAttributes
      [Some (Attr (Str "Delivery-Date") (Str "old"))]
      [Some (Attr (Str "Delivery-Date") (Str "new"))]
    = [Some (Attr (Str "Delivery-Date") (Str "new"))].
Proof.
  intros D M. subst M. repeat split.
  - by rewrite merge_take, overwritten_names.
  - intros i e He Hnone. apply merge_lookup_kept; [done|].
    intros n Hn. right. destruct (last_entry n D) as [a|] eqn:Ha; [|done].
    exfalso. apply (Hnone a); [by eapply last_entry_elem|].
    apply last_entry_key in Ha.
    by rewrite (opt_name_keyed a n), (opt_name_keyed e n).
  - intros n i a Hi Ha. rewrite (merge_lookup_last E D n i a Hi Ha).
    unfold new_object. apply last_entry_key in Ha.
    by rewrite (opt_name_keyed a n).
  - intros x n. rewrite merge_drop. apply appended_fresh_name.
  - apply merge_drop.
Qed.



(** C3.  Merging the same draft attributes a second time changes nothing:
    the second result has the length of the first and the same element at
    every place, so it is the same list, and [differs] reports no
    difference.  This holds for every incoming list, filtered or not. *)
Theorem merge_second_call_is_noop (E D : list entry) :
  let M := mergeNoteAttributes E D in
  let M' := mergeNoteAttributes M D in
  length M' = length M
  ∧ (∀ i, M' !! i = M !! i)
  ∧ M' = M
  ∧ differs M M' = false.
Proof.
  intros M M'. subst M M'. rewrite merge_idempotent. repeat split.
  unfold differs. by rewrite String.eqb_refl.
Qed.

(** C4.  In the list the handler merges (the allow-list filter followed by
    the merge) the existing names stay where they were, in order; every
    element that is not the existing element of its place is built from a
    draft attribute named [Delivery-Location-Id], [Delivery-Date] or
    [Checkout-Method], and carries that name; a draft attribute with any
    other name can be removed from the draft without changing the result.
    What either revision writes back is that list, for the attributes of the
    fetched order and of the fetched draft. *)
Theorem carry_over_respects_allow_list :
  (∀ E D0 : list entry,
     let M := mergeNoteAttributes E (filter_wanted D0) in
     opt_name <$> take (length E) M = opt_name <$> E
     ∧ (∀ i x, M !! i = Some x →
          E !! i = Some x ∨
          ∃ a n, a ∈ D0 ∧ opt_name a = Str n
            ∧ (n = "Delivery-Location-Id" ∨ n = "Delivery-Date"
               ∨ n = "Checkout-Method")
            ∧ x = Some {| name := Str n; value := or_empty (opt_value a) |})
     ∧ (∀ D1 a D2, wanted_has (opt_name a) = false →
          mergeNoteAttributes E (filter_wanted (D1 ++ a :: D2)) =
          mergeNoteAttributes E (filter_wanted (D1 ++ D2))))
  ∧ (∀ w req i m,
       PUT_order i m ∈ (run (RevA.handler w req)).2
       ∨ PUT_order i m ∈ (run (RevB.handler w req)).2 →
       m = mergeNoteAttributes
             (order_attributes (json (orders w i)))
             (filter_wanted (draft_attributes
                (json (draft_orders w (order_draft_id (json (orders w i)))))))).
Proof.
  split.
  - intros E D0 M. subst M. repeat split.
    + by rewrite merge_take, overwritten_names.
    + intros i x Hx.
      apply merge_lookup_cases in Hx as [?|(a & m & Ha & _ & ->)]; [by left|].
      right. apply elem_of_filter_wanted in Ha as [Ha (n & Hn & Hw)].
      exists a, n. repeat split; [done..| |].
      * by apply elem_of_wanted.
      * unfold new_object. by rewrite Hn.
    + intros D1 a D2 Ha. unfold filter_wanted.
      rewrite !filter_app, filter_cons_False; [done|]. congruence.
  - intros w req i m [H|H].
    + by apply (RevA_put_payload w req).
    + by apply (RevB_put_payload w req).
Qed.

(** C5.  Second revision, on an authenticated POST with an order id whose
    order fetch succeeds.  When the lower-cased tags do not contain
    [samita-wholesale] the reply is 200 and the order fetch is the only
    call.  When they do, the run goes on as the first revision does from the
    draft link: with no draft link it ends there, and with one the draft is
    fetched next.  The tags of the two examples are classified as stated. *)
Theorem tag_filter_gates_processing
    (w : world) (req : request) (o : option event) :
  method req = "POST" → ¬ authentication_fails w req →
  JSON_parse w (raw_body req) = Some o → truthy_id (event_id o) = true →
  ok (orders w (event_id o)) = true →
  (includes (toLowerCase (order_tags (json (orders w (event_id o)))))
     "samita-wholesale" = false →
   run (RevB.handler w req) =
   ({| status := 200; text := "Not a Samita order" |},
    [GET_order (event_id o)]))
  ∧ (includes (toLowerCase (order_tags (json (orders w (event_id o)))))
       "samita-wholesale" = true →
     run (RevB.handler w req) = run (RevA.handler w req)
     ∧ (truthy_id (order_draft_id (json (orders w (event_id o)))) = false →
        run (RevB.handler w req) =
        ({| status := 200; text := "No draft link" |},
         [GET_order (event_id o)]))
     ∧ (truthy_id (order_draft_id (json (orders w (event_id o)))) = true →
        ∃ rest, (run (RevB.handler w req)).2 =
          GET_order (event_id o)
          :: GET_draft (order_draft_id (json (orders w (event_id o))))
          :: rest))
  ∧ includes (toLowerCase "Wholesale, SAMITA-Wholesale") "samita-wholesale"
    = true
  ∧ includes (toLowerCase "retail") "samita-wholesale" = false.
Proof.
  intros Hm Ha Hp Hid Hok. split; [|split; [|done]].
  - by apply RevB_not_tagged.
  - intros Ht. rewrite (RevB_tagged w req o) by done.
    split; [done|]. split; intros Hd.
    + by apply RevA_no_draft_link.
    + by apply RevA_draft_fetched.
Qed.

Lemma tag_filter_gates_processing_witness :
  run (RevB.handler (sample_world retail_order) sample_request) =
  ({| status := 200; text := "Not a Samita order" |}, [GET_order (IdNum 1)]).
Proof.
  apply (proj1 (tag_filter_gates_processing
                  (sample_world retail_order) sample_request
                  (Some {| id := IdNum 1 |})
                  eq_refl
                  (authenticated_not_fails
                     (sample_world retail_order) sample_request eq_refl)
                  eq_refl eq_refl eq_refl)).
  vm_compute. reflexivity.
Defined.

(** C6.  A reply, when the handler sends one, has status 200, 401 or 400:
    401 exactly on a POST that fails authentication, 400 exactly on an
    authenticated POST whose body does not parse, 200 otherwise; and when
    every awaited call answers, every request is replied to, with the reply
    and the calls of [RevA.handler] and [RevB.handler].  But not every
    request is replied to.  The body read, the two
    fetches with their [json()] and the write are awaited outside any [try]:
    when one of them rejects, the run ends there with the calls issued so
    far and no reply at all, in both revisions.  So is the sample delivery
    when the shop cannot be reached, and so is it, after the write was
    issued, when only the write fails to go through: the final path does
    not reply 200 regardless of the write. *)
Theorem rejected_call_leaves_request_unanswered :
  run_try (RevA_net.handler (sample_world wholesale_order) shop_unreachable
             sample_request)
  = (rejected, [GET_order (IdNum 1)])
  ∧ run_try (RevB_net.handler (sample_world wholesale_order) shop_unreachable
               sample_request)
    = (rejected, [GET_order (IdNum 1)])
  ∧ run_try (RevA_net.handler (sample_world wholesale_order) write_unreachable
               sample_request)
    = (rejected,
       [GET_order (IdNum 1); GET_draft (IdNum 7);
        PUT_order (IdNum 1)
          [Some (Attr (Str "Gift") (Str "yes"));
           Some (Attr (Str "Delivery-Date") (Str "2024-05-01"))]])
  ∧ run_try (RevB_net.handler (sample_world wholesale_order) write_unreachable
               sample_request)
    = (rejected,
       [GET_order (IdNum 1); GET_draft (IdNum 7);
        PUT_order (IdNum 1)
          [Some (Attr (Str "Gift") (Str "yes"));
           Some (Attr (Str "Delivery-Date") (Str "2024-05-01"))]])
  ∧ run_try (RevA_net.handler (sample_world wholesale_order) stream_broken
               sample_request)
    = (rejected, [])
  ∧ (∀ (w : world) (f : faults) (req : request),
       method req = "POST" → body_read_rejects f = true →
       run_try (RevA_net.handler w f req) = (rejected, [])
       ∧ run_try (RevB_net.handler w f req) = (rejected, []))
  ∧ (∀ (w : world) (f : faults) (req : request) (o : option event),
       method req = "POST" → body_read_rejects f = false →
       ¬ authentication_fails w req →
       JSON_parse w (raw_body req) = Some o → truthy_id (event_id o) = true →
       order_fetch_rejects f (event_id o) = true →
       run_try (RevA_net.handler w f req) = (rejected, [GET_order (event_id o)])
       ∧ run_try (RevB_net.handler w f req)
         = (rejected, [GET_order (event_id o)]))
  ∧ (∀ (w : world) (f : faults) (req : request) (o : option event),
       method req = "POST" → body_read_rejects f = false →
       ¬ authentication_fails w req →
       JSON_parse w (raw_body req) = Some o → truthy_id (event_id o) = true →
       order_fetch_rejects f (event_id o) = false →
       ok (orders w (event_id o)) = true →
       order_json_rejects f (event_id o) = true →
       run_try (RevA_net.handler w f req) = (rejected, [GET_order (event_id o)])
       ∧ run_try (RevB_net.handler w f req)
         = (rejected, [GET_order (event_id o)]))
  ∧ (∀ (w : world) (f : faults) (req : request) (o : option event),
       method req = "POST" → body_read_rejects f = false →
       ¬ authentication_fails w req →
       JSON_parse w (raw_body req) = Some o → truthy_id (event_id o) = true →
       order_fetch_rejects f (event_id o) = false →
       ok (orders w (event_id o)) = true →
       order_json_rejects f (event_id o) = false →
       truthy_id (draftId_of w o) = true →
       draft_fetch_rejects f (draftId_of w o) = true
       ∨ (draft_fetch_rejects f (draftId_of w o) = false
          ∧ ok (draft_orders w (draftId_of w o)) = true
          ∧ draft_json_rejects f (draftId_of w o) = true) →
       run_try (RevA_net.handler w f req) =
         (rejected, [GET_order (event_id o); GET_draft (draftId_of w o)])
       ∧ (tagged w o = true →
          run_try (RevB_net.handler w f req) =
            (rejected, [GET_order (event_id o); GET_draft (draftId_of w o)])))
  ∧ (∀ (w : world) (f : faults) (req : request) (o : option event),
       method req = "POST" → body_read_rejects f = false →
       ¬ authentication_fails w req →
       JSON_parse w (raw_body req) = Some o → truthy_id (event_id o) = true →
       order_fetch_rejects f (event_id o) = false →
       ok (orders w (event_id o)) = true →
       order_json_rejects f (event_id o) = false →
       truthy_id (draftId_of w o) = true →
       draft_fetch_rejects f (draftId_of w o) = false →
       ok (draft_orders w (draftId_of w o)) = true →
       draft_json_rejects f (draftId_of w o) = false →
       draftAttrs_of w o ≠ [] →
       differs (existing_of w o) (merged_of w o) = true →
       put_rejects f (event_id o) (merged_of w o) = true →
       run_try (RevA_net.handler w f req) =
         (rejected,
          [GET_order (event_id o); GET_draft (draftId_of w o);
           PUT_order (event_id o) (merged_of w o)])
       ∧ (tagged w o = true →
          run_try (RevB_net.handler w f req) =
            (rejected,
             [GET_order (event_id o); GET_draft (draftId_of w o);
              PUT_order (event_id o) (merged_of w o)])))
  ∧ (∀ (w : world) (f : faults) (req : request) (r : reply) (c : list call),
       run_try (RevA_net.handler w f req) = (resolved r, c)
       ∨ run_try (RevB_net.handler w f req) = (resolved r, c) →
       r ∈ replies
       ∧ (status r = 200 ∨ status r = 401 ∨ status r = 400)
       ∧ (status r = 401 ↔ method req = "POST" ∧ authentication_fails w req)
       ∧ (status r = 400 ↔
            method req = "POST" ∧ ¬ authentication_fails w req
            ∧ JSON_parse w (raw_body req) = None)
       ∧ (status r = 200 ↔
            method req ≠ "POST"
            ∨ (¬ authentication_fails w req
               ∧ ∃ o, JSON_parse w (raw_body req) = Some o)))
  ∧ (∀ (w : world) (req : request),
       run_try (RevA_net.handler w no_faults req)
       = (resolved (run (RevA.handler w req)).1, (run (RevA.handler w req)).2)
       ∧ run_try (RevB_net.handler w no_faults req)
         = (resolved (run (RevB.handler w req)).1,
            (run (RevB.handler w req)).2)).
Proof.
  do 5 (split; [vm_compute; reflexivity|]).
  split; [|split; [|split; [|split; [|split; [|split]]]]].
  - intros w f req Hm Hb. split.
    + by apply RevA_net_body_read_rejects.
    + by apply RevB_net_body_read_rejects.
  - intros w f req o Hm Hb Ha Hp Hid Hrej. split.
    + by apply (RevA_net_order_fetch_rejects w f req o).
    + by apply (RevB_net_order_fetch_rejects w f req o).
  - intros w f req o Hm Hb Ha Hp Hid Hof Hok Hoj. split.
    + by apply (RevA_net_order_json_rejects w f req o).
    + by apply (RevB_net_order_json_rejects w f req o).
  - intros w f req o Hm Hb Ha Hp Hid Hof Hok Hoj Hd Hrej. split.
    + by apply RevA_net_draft_read_rejects.
    + intros Ht. rewrite (RevB_net_tagged w f req o) by done.
      by apply RevA_net_draft_read_rejects.
  - intros w f req o Hm Hb Ha Hp Hid Hof Hok Hoj Hd Hdf Hdok Hdj Hne Hdiff Hput.
    split.
    + by apply RevA_net_put_rejects.
    + intros Ht. rewrite (RevB_net_tagged w f req o) by done.
      by apply RevA_net_put_rejects.
  - apply net_reply_policy.
  - intros w req. split.
    + apply RevA_net_no_faults.
    + apply RevB_net_no_faults.
Qed.

(** C7.  On an authenticated POST with an order id whose order fetch
    succeeds (and, in the second revision, whose tags carry the marker), an
    order whose [draft_order_id] is falsy ends the run with 200 and the
    order fetch as the only call.  Absent, null, zero and the empty string
    are falsy. *)
Theorem no_draft_link_stops_after_order_fetch
    (w : world) (req : request) (o : option event) :
  method req = "POST" → ¬ authentication_fails w req →
  JSON_parse w (raw_body req) = Some o → truthy_id (event_id o) = true →
  ok (orders w (event_id o)) = true →
  truthy_id (order_draft_id (json (orders w (event_id o)))) = false →
  run (RevA.handler w req) =
    ({| status := 200; text := "No draft link" |}, [GET_order (event_id o)])
  ∧ (includes (toLowerCase (order_tags (json (orders w (event_id o)))))
       "samita-wholesale" = true →
     run (RevB.handler w req) =
     ({| status := 200; text := "No draft link" |}, [GET_order (event_id o)]))
  ∧ truthy_id IdUndefined = false ∧ truthy_id IdNull = false
  ∧ truthy_id (IdNum 0) = false ∧ truthy_id (IdStr "") = false.
Proof.
  intros Hm Ha Hp Hid Hok Hd. split; [by apply RevA_no_draft_link|].
  split; [|done]. intros Ht. rewrite (RevB_tagged w req o) by done.
  by apply RevA_no_draft_link.
Qed.

Lemma no_draft_link_stops_after_order_fetch_witness :
  run (RevA.handler (sample_world unlinked_order) sample_request) =
  ({| status := 200; text := "No draft link" |}, [GET_order (IdNum 1)]).
Proof.
  apply (proj1 (no_draft_link_stops_after_order_fetch
                  (sample_world unlinked_order) sample_request
                  (Some {| id := IdNum 1 |})
                  eq_refl
                  (authenticated_not_fails
                     (sample_world unlinked_order) sample_request eq_refl)
                  eq_refl eq_refl eq_refl eq_refl)).
Defined.

(** C8.  Elements with no name take no part in the merge.  Incoming ones can
    be removed without changing the result.  Existing ones stay where they
    are, unchanged, and have no influence on the rest: removing them before
    the merge or after it gives the same list. *)
Theorem unnamed_take_no_part (E D : list entry) :
  mergeNoteAttributes E (filter (λ a, named a = true) D) = mergeNoteAttributes E D
  ∧ (∀ i e, E !! i = Some e → named e = false →
       mergeNoteAttributes E D !! i = Some e)
  ∧ filter (λ a, named a = true) (mergeNoteAttributes E D) =
    mergeNoteAttributes (filter (λ a, named a = true) E) D.
Proof.
  repeat split.
  - apply foldl_upsert_named.
  - intros i e He Hn. apply merge_lookup_kept; [done|].
    intros n Hk. unfold named in Hn. by rewrite Hk in Hn.
  - apply merge_filter_named.
Qed.

(** C9.  A value read from the shop can be of any kind.  For an incoming
    attribute with a name whose value is null or undefined, the object
    pushed or assigned is the one of that name with the empty string as its
    value.  The object written for the last incoming attribute of a name is
    in the merged list: in the place of an existing element of that name, or
    behind the existing elements when none has the name.  Every element of
    the merged list is the existing element of its place or the object
    written for a named incoming attribute; the value of such an object is
    never null or undefined, it is a string exactly when the incoming value
    was a string, null or undefined, and it is the incoming value itself
    when that was not null or undefined.  On values that are absent, null or
    strings this merge is the merge of the first embedding. *)
Theorem nullish_value_is_written_as_empty_string (E D : list entry_any) :
  (∀ a n, key_of_any a = Some n → is_nullish (opt_value_any a) = true →
     new_object_any a = Some (AttrAny (Str n) (VStr ""))
     ∧ ∀ idx out,
         upsert_any idx out a =
         match idx !! n with
         | None => (out ++ [Some (AttrAny (Str n) (VStr ""))])%list
         | Some i => <[i := Some (AttrAny (Str n) (VStr ""))]> out
         end)
  ∧ (∀ D1 a D2 n, D = (D1 ++ a :: D2)%list → key_of_any a = Some n →
       (∀ b, b ∈ D2 → key_of_any b ≠ Some n) →
       ∃ k, mergeNoteAttributes_any E D !! k = Some (new_object_any a)
            ∧ ((∃ e, E !! k = Some e ∧ key_of_any e = Some n)
               ∨ ((length E ≤ k)%nat
                  ∧ ∀ e, e ∈ E → key_of_any e ≠ Some n)))
  ∧ (∀ i x, mergeNoteAttributes_any E D !! i = Some x →
       E !! i = Some x
       ∨ ∃ a n, a ∈ D ∧ key_of_any a = Some n
           ∧ x = Some (AttrAny (Str n) (or_empty_any (opt_value_any a)))
           ∧ is_nullish (or_empty_any (opt_value_any a)) = false
           ∧ (is_string (or_empty_any (opt_value_any a)) = true ↔
              is_string (opt_value_any a) = true
              ∨ is_nullish (opt_value_any a) = true)
           ∧ (is_nullish (opt_value_any a) = false →
              or_empty_any (opt_value_any a) = opt_value_any a))
  ∧ (∀ E0 D0 : list entry,
       mergeNoteAttributes_any (widen_entry <$> E0) (widen_entry <$> D0)
       = widen_entry <$> mergeNoteAttributes E0 D0).
Proof.
  split; [|split; [|split]].
  - intros a n Hn Hv. pose proof (new_object_any_nullish a n Hn Hv) as Hobj.
    split; [done|]. intros idx out.
    by rewrite (upsert_any_keyed idx out a n Hn), Hobj.
  - intros D1 a D2 n -> Hn Hlast. by apply merge_any_contains_last.
  - intros i x [?|(a & n & Ha & Hn & ->)]%merge_any_lookup_cases; [by left|].
    right. exists a, n. split; [done|]. split; [done|].
    unfold new_object_any. rewrite (opt_name_any_keyed a n Hn).
    split; [done|]. destruct (opt_value_any a); simpl; intuition discriminate.
  - apply merge_any_widen.
Qed.

(** A number or a boolean given as a value is written as it is: the merged
    list then holds, from the incoming side, values that are not strings. *)
Lemma number_and_boolean_values_are_kept :
  mergeNoteAttributes_any
    [Some (AttrAny (Str "Checkout-Method") (VStr "pickup"))]
    [Some (AttrAny (Str "Delivery-Date") (VNum 0));
     Some (AttrAny (Str "Checkout-Method") (VBool false))]
  = [Some (AttrAny (Str "Checkout-Method") (VBool false));
     Some (AttrAny (Str "Delivery-Date") (VNum 0))]
  ∧ is_string (VNum 0) = false ∧ is_string (VBool false) = false.
Proof. vm_compute. done. Qed.

(** C10.  When two existing elements carry the same name, the earlier one is
    left as it is, in place, whatever the incoming list; the element written
    for that name is the last one that carries it. *)
Theorem only_last_duplicate_is_overwritten
    (E D : list entry) (i j : nat) (e e' : entry) (n : string) :
  i < j → E !! i = Some e → E !! j = Some e' →
  key_of e = Some n → key_of e' = Some n →
  mergeNoteAttributes E D !! i = Some e
  ∧ ∃ k, last_pos n E = Some k ∧ i < k
      ∧ ∀ a, last_entry n D = Some a →
          mergeNoteAttributes E D !! k = Some (new_object a).
Proof.
  intros Hij Hi Hj He He'. split.
  - apply merge_lookup_kept; [done|]. intros m Hm. left.
    assert (m = n) as -> by congruence.
    intros [_ Hlast]%last_pos_Some. by apply (Hlast j e').
  - destruct (last_pos n E) as [k|] eqn:Hk.
    + exists k. split; [done|]. split.
      * apply last_pos_Some in Hk as Hk'. destruct Hk' as [_ Hlast].
        destruct (decide (j ≤ k)%nat); [lia|]. exfalso.
        apply (Hlast j e'); [lia|done..].
      * intros a Ha. by eapply merge_lookup_last.
    + exfalso. eapply (proj1 (last_pos_None n E) Hk e); [|done].
      by eapply list_elem_of_lookup_2.
Qed.

Lemma only_last_duplicate_is_overwritten_witness :
  mergeNoteAttributes
    [Some (Attr (Str "Delivery-Date") (Str "first"));
     Some (Attr (Str "Delivery-Date") (Str "second"))]
    [Some (Attr (Str "Delivery-Date") (Str "new"))] !! 0
  = Some (Some (Attr (Str "Delivery-Date") (Str "first"))).
Proof.
  apply (only_last_duplicate_is_overwritten
           [Some (Attr (Str "Delivery-Date") (Str "first"));
            Some (Attr (Str "Delivery-Date") (Str "second"))]
           [Some (Attr (Str "Delivery-Date") (Str "new"))]
           0 1
           (Some (Attr (Str "Delivery-Date") (Str "first")))
           (Some (Attr (Str "Delivery-Date") (Str "second")))
           "Delivery-Date"); [lia|reflexivity..].
Defined.

(** * More facts about the merge *)

Section more_merge_facts.

Local Open Scope list_scope.

Implicit Types (n : string) (a e : entry) (l E D : list entry).

Lemma last_entry_app n l1 l2 :
  last_entry n (l1 ++ l2) =
  match last_entry n l2 with
  | Some b => Some b
  | None => last_entry n l1
  end.
Proof.
  induction l1 as [|a l1 IH]; simpl.
  - by destruct (last_entry n l2).
  - rewrite IH. by destruct (last_entry n l2).
Qed.

Lemma last_entry_None n l : last_entry n l = None ↔ last_pos n l = None.
Proof.
  rewrite last_entry_pos. destruct (last_pos n l) as [k|] eqn:Hk; simpl; [|done].
  apply last_pos_lt in Hk. apply lookup_lt_is_Some_2 in Hk as [b ->]. done.
Qed.

Lemma last_entry_overwritten n D E :
  last_entry n (overwritten D E) =
  match last_entry n E with
  | Some e => Some (written n D e)
  | None => None
  end.
Proof.
  rewrite !last_entry_pos, (last_pos_keys n _ E (overwritten_keys D E)).
  destruct (last_pos n E) as [i|] eqn:Hi; simpl; [|done].
  pose proof (last_pos_lt _ _ _ Hi) as [e He]%lookup_lt_is_Some_2.
  by rewrite He, (overwritten_lookup_last D E n i e Hi He).
Qed.

Lemma last_entry_merge E D n :
  last_entry n (mergeNoteAttributes E D) =
  match last_entry n D with
  | Some a => Some (new_object a)
  | None => last_entry n E
  end.
Proof.
  rewrite merge_closed, last_entry_app, last_entry_overwritten.
  destruct (last_pos n E) as [i|] eqn:Hi.
  - assert (last_entry n (appended E D) = None) as ->.
    { apply last_entry_None, last_pos_None. intros x Hx Hk.
      pose proof (appended_fresh_name E D x n Hx Hk). congruence. }
    destruct (last_entry n E) as [e|] eqn:He.
    + unfold written. by destruct (last_entry n D).
    + apply last_entry_None in He. congruence.
  - rewrite (last_entry_appended E D n Hi).
    apply last_entry_None in Hi as ->.
    by destruct (last_entry n D).
Qed.

Lemma merge_fixed_iff E D :
  mergeNoteAttributes E D = E ↔
  ∀ n a, last_entry n D = Some a → last_entry n E = Some (new_object a).
Proof.
  split.
  - intros Heq n a Ha. rewrite <- Heq at 1. by rewrite last_entry_merge, Ha.
  - intros Hheld. rewrite merge_closed.
    assert (appended E D = []) as ->.
    { unfold appended. rewrite filter_none; [done|].
      intros a Ha Hnew. apply is_new_spec in Hnew as (n & Hn & Hnone).
      destruct (last_entry n D) as [b|] eqn:Hb.
      - specialize (Hheld n b Hb). apply last_entry_None in Hnone. congruence.
      - apply last_entry_None in Hb.
        by eapply (proj1 (last_pos_None n D) Hb a). }
    rewrite app_nil_r. apply overwritten_id. intros n k e Hk He.
    unfold written. destruct (last_entry n D) as [a|] eqn:Ha; [|done].
    specialize (Hheld n a Ha). rewrite last_entry_pos, Hk in Hheld.
    simpl in Hheld. congruence.
Qed.

Lemma merge_length E D :
  length (mergeNoteAttributes E D) =
  length E + length (filter (λ a, is_new E a = true) D).
Proof.
  rewrite merge_closed, length_app, length_overwritten. unfold appended.
  by rewrite length_fmap.
Qed.

Lemma merge_no_named E D :
  (∀ a, a ∈ D → named a = false) → mergeNoteAttributes E D = E.
Proof.
  intros Hno. unfold mergeNoteAttributes. cbv zeta.
  rewrite <- foldl_upsert_named, filter_none; [done|].
  intros a Ha. rewrite (Hno a Ha). done.
Qed.

Lemma merge_nil_l D :
  mergeNoteAttributes [] D = new_object <$> filter (λ a, named a = true) D.
Proof. rewrite merge_closed. reflexivity. Qed.

Lemma omap_key_overwritten D E : omap key_of (overwritten D E) = omap key_of E.
Proof.
  induction E as [|e E IH]; [done|]. cbn [overwritten omap list_omap].
  fold (omap key_of (overwritten D E)). fold (omap key_of E). rewrite IH.
  destruct (key_of e) as [n|] eqn:He; [|by rewrite He].
  destruct (last_pos n E); [by rewrite He|]. by rewrite (written_key n D e He).
Qed.

Lemma omap_key_appended E D :
  omap key_of (appended E D) = omap key_of (filter (λ a, is_new E a = true) D).
Proof.
  unfold appended. induction D as [|a D IH]; [done|].
  destruct (is_new E a) eqn:Hnew.
  - rewrite filter_cons_True by done. csimpl. rewrite IH.
    apply is_new_spec in Hnew as (n & Hn & _).
    by rewrite (key_of_new_object a n Hn), Hn.
  - rewrite filter_cons_False by congruence. apply IH.
Qed.

Lemma NoDup_omap_filter {A B} (f : A → option B) (P : A → Prop)
    `{∀ x, Decision (P x)} (l : list A) :
  NoDup (omap f l) → NoDup (omap f (filter P l)).
Proof.
  induction l as [|x l IH]; [done|]. csimpl.
  destruct (decide (P x)) as [HP|HP].
  - rewrite filter_cons_True by done. csimpl.
    destruct (f x) as [y|]; [|done].
    intros [Hy Hl]%NoDup_cons. apply NoDup_cons. split; [|by apply IH].
    intros (z & [_ Hz]%list_elem_of_filter & Hfz)%list_elem_of_omap.
    apply Hy, list_elem_of_omap. eauto.
  - rewrite filter_cons_False by done.
    destruct (f x) as [y|]; [|done]. intros [_ Hl]%NoDup_cons. by apply IH.
Qed.

Lemma foldl_ext_in {A B} (f g : A → B → A) (l : list B) (x : A) :
  (∀ y b, b ∈ l → f y b = g y b) → foldl f x l = foldl g x l.
Proof.
  revert x. induction l as [|b l IH]; intros x Hfg; [done|]. simpl.
  rewrite (Hfg x b) by (by left). apply IH. intros y c Hc. apply Hfg. by right.
Qed.

End more_merge_facts.

(** * The text of a list determines the list *)

Section stringify_facts.

Lemma string_app_cons (x : ascii) (a b : string) :
  String x a ++ b = String x (a ++ b).
Proof. reflexivity. Qed.

Lemma string_app_nil (b : string) : "" ++ b = b.
Proof. reflexivity. Qed.

Lemma string_app_assoc (a b c : string) : (a ++ b) ++ c = a ++ (b ++ c).
Proof.
  induction a as [|x a IH]; [done|]. rewrite !string_app_cons. by f_equal.
Qed.

Ltac str_norm :=
  repeat (rewrite string_app_cons || rewrite string_app_nil
          || rewrite string_app_assoc).

(** Every escape decodes to its character. *)
Lemma unescape_escape c x : unescape_head (escape_char c ++ x) = Some (c, x).
Proof. destruct c as [[] [] [] [] [] [] [] []]; reflexivity. Qed.

Lemma escape_cons c s : escape (String c s) = escape_char c ++ escape s.
Proof. reflexivity. Qed.

Lemma escape_tail_inj s1 s2 r1 r2 :
  escape s1 ++ String quote_char r1 = escape s2 ++ String quote_char r2 →
  s1 = s2 ∧ r1 = r2.
Proof.
  revert s2. induction s1 as [|c1 s1 IH]; intros [|c2 s2];
    rewrite ?escape_cons, ?string_app_assoc; change (escape "") with "";
    rewrite ?string_app_nil.
  - by intros [= ->].
  - intros H. apply (f_equal unescape_head) in H.
    rewrite unescape_escape in H. done.
  - intros H. apply (f_equal unescape_head) in H.
    rewrite unescape_escape in H. done.
  - intros H. apply (f_equal unescape_head) in H.
    rewrite !unescape_escape in H. injection H as -> H.
    by apply IH in H as [-> ->].
Qed.

Lemma quote_app s k : quote s ++ k = emit_quoted s k.
Proof. unfold quote, emit_quoted. by str_norm. Qed.

Lemma stringify_entry_app e k : stringify_entry e ++ k = emit_entry e k.
Proof.
  destruct e as [[n v]|]; [|done].
  destruct n as [| |n], v as [| |v];
    unfold stringify_entry, stringify_property, emit_entry, emit_value;
    cbn [name value String.concat app]; str_norm; rewrite ?quote_app;
    by str_norm.
Qed.

Lemma emit_name k :
  emit_quoted "name" k =
  String quote_char
    (String "n" (String "a" (String "m" (String "e" (String quote_char k))))).
Proof. reflexivity. Qed.

Lemma emit_value_key k :
  emit_quoted "value" k =
  String quote_char
    (String "v" (String "a" (String "l" (String "u" (String "e"
       (String quote_char k)))))).
Proof. reflexivity. Qed.

Ltac peel :=
  repeat match goal with
  | H : String _ _ = String _ _ |- _ =>
      first [ discriminate H | injection H as H | injection H as ? H ]
  | H : escape _ ++ String _ _ = escape _ ++ String _ _ |- _ =>
      apply escape_tail_inj in H as [? H]
  end.

(** The text of an element ends where the element ends. *)
Lemma emit_entry_inj e1 e2 k1 k2 :
  emit_entry e1 k1 = emit_entry e2 k2 → e1 = e2 ∧ k1 = k2.
Proof.
  destruct e1 as [[n1 v1]|], e2 as [[n2 v2]|];
    [destruct n1 as [| |n1], v1 as [| |v1], n2 as [| |n2], v2 as [| |v2] |
     destruct n1 as [| |n1], v1 as [| |v1] |
     destruct n2 as [| |n2], v2 as [| |v2] | ];
    unfold emit_entry, emit_value; cbn [name value];
    rewrite ?emit_name, ?emit_value_key; unfold emit_quoted, quote_char;
    str_norm; intros H; peel; subst; try done.
Qed.

Lemma concat_entries e l k :
  String.concat "," (stringify_entry <$> (e :: l)) ++ "]" ++ k =
  emit_entry e (emit_rest l k).
Proof.
  revert e. induction l as [|e' l IH]; intros e.
  - cbn [fmap list_fmap String.concat emit_rest]. apply stringify_entry_app.
  - change (String.concat "," (stringify_entry <$> e :: e' :: l))
      with (stringify_entry e ++ ","
            ++ String.concat "," (stringify_entry <$> (e' :: l))).
    rewrite !string_app_assoc, IH. cbn [emit_rest]. apply stringify_entry_app.
Qed.

Lemma JSON_stringify_emit l : JSON_stringify l = emit_list l.
Proof.
  unfold JSON_stringify, emit_list. destruct l as [|e l]; [done|].
  f_equal. pose proof (concat_entries e l "") as H. by rewrite <- H.
Qed.

Lemma emit_rest_inj l1 l2 k1 k2 :
  emit_rest l1 k1 = emit_rest l2 k2 → l1 = l2 ∧ k1 = k2.
Proof.
  revert l2. induction l1 as [|e1 l1 IH]; intros [|e2 l2]; cbn [emit_rest];
    str_norm; intros H; try discriminate.
  - by injection H as ->.
  - injection H as H. apply emit_entry_inj in H as [-> H].
    by apply IH in H as [-> ->].
Qed.

Lemma JSON_stringify_inj l1 l2 :
  JSON_stringify l1 = JSON_stringify l2 → l1 = l2.
Proof.
  rewrite !JSON_stringify_emit. unfold emit_list.
  destruct l1 as [|e1 l1], l2 as [|e2 l2]; str_norm; intros H; try done.
  - injection H as H. destruct e2 as [[[| |?] [| |?]]|]; discriminate.
  - injection H as H. destruct e1 as [[[| |?] [| |?]]|]; discriminate.
  - injection H as H. apply emit_entry_inj in H as [-> H].
    by apply emit_rest_inj in H as [-> _].
Qed.

Lemma differs_false a1 a2 : differs a1 a2 = false ↔ a1 = a2.
Proof.
  unfold differs. rewrite negb_false_iff, String.eqb_eq. split.
  - apply JSON_stringify_inj.
  - by intros ->.
Qed.

(** *** Substrings and lower case *)

Lemma prefix_spec m s : String.prefix m s = true ↔ ∃ post, s = m ++ post.
Proof.
  revert s. induction m as [|c m IH]; intros [|d s]; simpl.
  - split; [|done]. intros _. by exists "".
  - split; [|done]. intros _. by exists (String d s).
  - split; [done|]. intros [post Hp]. by rewrite string_app_cons in Hp.
  - destruct (ascii_dec c d) as [->|Hne].
    + rewrite IH. split; intros [post Hp]; exists post.
      * rewrite string_app_cons. by f_equal.
      * rewrite string_app_cons in Hp. by injection Hp.
    + split; [done|]. intros [post Hp]. rewrite string_app_cons in Hp.
      injection Hp as Hcd _. congruence.
Qed.

Lemma includes_spec s m :
  includes s m = true ↔ ∃ pre post, s = pre ++ m ++ post.
Proof.
  induction s as [|c s IH].
  - cbn [includes]. rewrite orb_false_r, prefix_spec. split.
    + intros [post Hp]. by exists "", post.
    + intros (pre & post & Hp). destruct pre as [|? pre]; [by exists post|].
      by rewrite string_app_cons in Hp.
  - cbn [includes]. rewrite orb_true_iff, prefix_spec, IH. split.
    + intros [[post Hp]|(pre & post & Hp)].
      * by exists "", post.
      * exists (String c pre), post. rewrite string_app_cons. by f_equal.
    + intros (pre & post & Hp). destruct pre as [|d pre].
      * left. by exists post.
      * right. rewrite string_app_cons in Hp. injection Hp as _ Hp.
        by exists pre, post.
Qed.

Lemma toLowerCase_app a b :
  toLowerCase (a ++ b) = toLowerCase a ++ toLowerCase b.
Proof.
  induction a as [|c a IH]; [done|].
  rewrite string_app_cons. cbn [toLowerCase]. rewrite string_app_cons.
  by f_equal.
Qed.

Lemma toLowerCase_split t a b :
  toLowerCase t = a ++ b →
  ∃ t1 t2, t = t1 ++ t2 ∧ toLowerCase t1 = a ∧ toLowerCase t2 = b.
Proof.
  revert t. induction a as [|c a IH]; intros t.
  - rewrite string_app_nil. intros H. by exists "", t.
  - rewrite string_app_cons. destruct t as [|d t]; [done|]. cbn [toLowerCase].
    intros [= Hc (t1 & t2 & -> & H1 & H2)%IH].
    exists (String d t1), t2. rewrite string_app_cons. cbn [toLowerCase].
    by rewrite Hc, H1.
Qed.

(** *** The request stream *)

Lemma Buffer_concat_app cs1 cs2 :
  Buffer_concat (cs1 ++ cs2) = Buffer_concat cs1 ++ Buffer_concat cs2.
Proof.
  unfold Buffer_concat. induction cs1 as [|c cs1 IH]; [done|].
  destruct cs1 as [|d cs1].
  - destruct cs2 as [|d cs2].
    + simpl. clear IH. induction c as [|x c IHc]; [done|].
      rewrite string_app_cons. by f_equal.
    + change (String.concat "" ([c] ++ d :: cs2)%list)
        with (c ++ "" ++ String.concat "" (d :: cs2)).
      by rewrite string_app_nil.
  - change (String.concat "" ((c :: d :: cs1) ++ cs2)%list)
      with (c ++ "" ++ String.concat "" ((d :: cs1) ++ cs2)%list).
    change (String.concat "" (c :: d :: cs1))
      with (c ++ "" ++ String.concat "" (d :: cs1)).
    by rewrite !string_app_nil, IH, string_app_assoc.
Qed.

Lemma readRawBody_from_resolved chunks events raw :
  readRawBody_from chunks events = resolved raw ↔
  ∃ cs rest, events = ((on_data <$> cs) ++ on_end :: rest)%list
    ∧ raw = Buffer_concat (chunks ++ cs)%list.
Proof.
  revert chunks. induction events as [|ev events IH]; intros chunks.
  - split; [done|]. intros (cs & rest & H & _). by destruct cs.
  - destruct ev as [c| |]; cbn [readRawBody_from].
    + rewrite IH. split.
      * intros (cs & rest & -> & ->). exists (c :: cs), rest.
        by rewrite <- (assoc_L (++)%list).
      * intros (cs & rest & H & ->). destruct cs as [|c' cs]; [done|].
        injection H as -> ->. exists cs, rest.
        by rewrite <- (assoc_L (++)%list).
    + split.
      * intros [= <-]. exists [], events. by rewrite app_nil_r.
      * intros (cs & rest & H & ->). destruct cs as [|c' cs]; [|done].
        by rewrite app_nil_r.
    + split; [done|]. intros (cs & rest & H & _). by destruct cs.
Qed.

Lemma readRawBody_from_rejected chunks events :
  readRawBody_from chunks events = rejected ↔
  ∃ cs rest, events = ((on_data <$> cs) ++ on_error :: rest)%list.
Proof.
  revert chunks. induction events as [|ev events IH]; intros chunks.
  - split; [done|]. intros (cs & rest & H). by destruct cs.
  - destruct ev as [c| |]; cbn [readRawBody_from].
    + rewrite IH. split.
      * intros (cs & rest & ->). by exists (c :: cs), rest.
      * intros (cs & rest & H). destruct cs as [|c' cs]; [done|].
        injection H as -> ->. by exists cs, rest.
    + split; [done|]. intros (cs & rest & H). by destruct cs.
    + split; [|done]. intros _. by exists [], events.
Qed.

End stringify_facts.

(** * Lower case, letter by letter *)

Section case_facts.

Lemma N_of_ascii_lt c : (N_of_ascii c < 256)%N.
Proof. apply N_ascii_bounded. Qed.

Lemma lower_char_upper c :
  is_upper c = true → N_of_ascii (lower_char c) = (N_of_ascii c + 32)%N.
Proof.
  unfold is_upper, lower_char. intros H. rewrite H.
  apply andb_true_iff in H as [_ H%N.leb_le].
  apply N_ascii_embedding. lia.
Qed.

Lemma lower_char_other c : is_upper c = false → lower_char c = c.
Proof. unfold is_upper, lower_char. by intros ->. Qed.

(** Lower-casing gives [d], which is no capital, exactly for [d] and for the
    capital of [d]. *)
Lemma lower_char_same c d :
  is_upper d = false → lower_char c = d ↔ same_letter c d = true.
Proof.
  intros Hd. unfold same_letter, capital_of. rewrite Hd. simpl.
  rewrite orb_false_r. destruct (is_upper c) eqn:Hc; simpl.
  - pose proof (lower_char_upper c Hc) as Hl.
    rewrite orb_true_iff, bool_decide_eq_true, N.eqb_eq. split.
    + intros <-. by right.
    + intros [->|H]; [congruence|].
      apply N_of_ascii_inj. congruence.
  - rewrite (lower_char_other c Hc), orb_false_r, bool_decide_eq_true. done.
Qed.

Lemma toLowerCase_same m k :
  no_upper k = true → toLowerCase m = k ↔ same_up_to_case m k = true.
Proof.
  revert k. induction m as [|c m IH]; intros [|d k]; simpl; try done.
  intros [Hd Hk]%andb_true_iff. apply negb_true_iff in Hd.
  rewrite andb_true_iff, <- (IH k Hk), <- (lower_char_same c d Hd).
  split; [by intros [= -> ->]|by intros [-> ->]].
Qed.

Lemma includes_lower_spec t k :
  no_upper k = true →
  includes (toLowerCase t) k = true ↔
  ∃ pre m post, t = pre ++ m ++ post ∧ same_up_to_case m k = true.
Proof.
  intros Hk. rewrite includes_spec. split.
  - intros (pre' & post' & (pre & t' & -> & _ & H)%toLowerCase_split).
    apply toLowerCase_split in H as (m & post & -> & Hm & _).
    exists pre, m, post. split; [done|]. by apply toLowerCase_same.
  - intros (pre & m & post & -> & Hm%toLowerCase_same); [|done].
    exists (toLowerCase pre), (toLowerCase post).
    by rewrite !toLowerCase_app, Hm.
Qed.

Lemma same_up_to_case_length m k :
  same_up_to_case m k = true → String.length m = String.length k.
Proof.
  revert k. induction m as [|c m IH]; intros [|d k]; simpl; try done.
  intros [_ H]%andb_true_iff. f_equal. by apply IH.
Qed.

Lemma same_letter_lower c d :
  is_upper d = false →
  same_letter c d = true ↔
  c = d ∨ ((65 ≤ N_of_ascii c)%N ∧ (N_of_ascii c ≤ 90)%N
           ∧ N_of_ascii d = (N_of_ascii c + 32)%N).
Proof.
  intros Hd. unfold same_letter, capital_of. rewrite Hd. simpl.
  rewrite orb_false_r, orb_true_iff, bool_decide_eq_true, andb_true_iff.
  unfold is_upper. rewrite andb_true_iff, !N.leb_le, N.eqb_eq. tauto.
Qed.

Lemma same_up_to_case_spec m k :
  no_upper k = true →
  same_up_to_case m k = true ↔
  String.length m = String.length k
  ∧ ∀ i c d, String.get i m = Some c → String.get i k = Some d →
      c = d ∨ ((65 ≤ N_of_ascii c)%N ∧ (N_of_ascii c ≤ 90)%N
               ∧ N_of_ascii d = (N_of_ascii c + 32)%N).
Proof.
  revert k. induction m as [|c m IH]; intros [|d k]; simpl.
  - intros _. split; [|done]. intros _. split; [done|]. by intros i c d.
  - intros _. split; [done|]. by intros [? _].
  - intros _. split; [done|]. by intros [? _].
  - intros [Hd Hk]%andb_true_iff. apply negb_true_iff in Hd.
    rewrite andb_true_iff, (IH k Hk), (same_letter_lower c d Hd). split.
    + intros [Hcd [Hlen Hall]]. split; [by f_equal|].
      intros [|i] c' d'; [by intros [= <-] [= <-]|]. apply Hall.
    + intros [[= Hlen] Hall]. split; [by apply (Hall 0)|]. split; [done|].
      intros i c' d'. apply (Hall (S i)).
Qed.

End case_facts.

(** * More facts about the handler *)

Section more_handler_facts.

Implicit Types (w : world) (req : request) (o : option event).

Ltac run_out :=
  unfold run, send, shopifyGET_order, shopifyGET_draft, shopifyPUT, issue,
    mbind, mret, Act_bind, Act_ret; simpl.

Ltac enter Hm Ha Hp Hid :=
  let H1 := fresh in
  let H2 := fresh in
  apply not_fails_authenticated, authenticated_true in Ha as [H1 H2];
  unfold RevA.handler, RevB.handler;
  rewrite Hm, H1, H2, Hp; simpl; rewrite Hid; simpl; run_out.

Ltac no_put H :=
  repeat (apply elem_of_cons in H as [H|H]; [try discriminate|]);
  try (by apply elem_of_nil in H).

Lemma RevA_calls_shape w req :
  reads_then_write w req (run (RevA.handler w req)).2.
Proof.
  unfold reads_then_write, RevA.handler. run_out.
  repeat case_match; simpl; try (by left); right; eexists; (split; [done|]);
    unfold merged_of, existing_of, draftAttrs_of, draftId_of, fullOrder_of;
    tauto.
Qed.

Lemma RevB_calls_shape w req :
  reads_then_write w req (run (RevB.handler w req)).2.
Proof.
  unfold reads_then_write, RevB.handler. run_out.
  repeat case_match; simpl; try (by left); right; eexists; (split; [done|]);
    unfold merged_of, existing_of, draftAttrs_of, draftId_of, fullOrder_of;
    tauto.
Qed.

Lemma RevB_within_RevA w req :
  run (RevB.handler w req) = run (RevA.handler w req)
  ∨ ∃ o, JSON_parse w (raw_body req) = Some o ∧ tagged w o = false
      ∧ run (RevB.handler w req) =
          ({| status := 200; text := "Not a Samita order" |},
           [GET_order (event_id o)])
      ∧ ∃ rest, (run (RevA.handler w req)).2 = GET_order (event_id o) :: rest.
Proof.
  unfold RevA.handler, RevB.handler, tagged, fullOrder_of. run_out.
  destruct (negb (method req =? "POST")); [by left|].
  destruct (not_string _ || not_string _); [by left|].
  destruct (negb (timingSafeEqual _ _)); [by left|].
  destruct (JSON_parse w (raw_body req)) as [o|] eqn:Hp; [|by left].
  destruct (negb (truthy_id (event_id o))); [by left|]. simpl.
  destruct (negb (ok (orders w (event_id o)))); [by left|].
  destruct (includes _ _) eqn:Ht; simpl; [by left|].
  right. exists o. repeat split; [done|].
  repeat case_match; simpl; by eexists.
Qed.

Lemma authenticated_cases w req :
  (authenticated w req = true ∧ ¬ authentication_fails w req)
  ∨ (authenticated w req = false ∧ authentication_fails w req).
Proof.
  destruct (authenticated w req) eqn:Ha.
  - left. split; [done|]. by apply authenticated_not_fails.
  - right. split; [done|]. by apply authenticated_false.
Qed.

Ltac early w req :=
  destruct (negb (method req =? "POST")) eqn:Hm;
  [ left; split; [|done]; left; intros HP; apply method_POST in HP; congruence |];
  apply method_POST in Hm;
  destruct (authenticated_cases w req) as [[Ha Hnf]|[Ha Hf]];
  [ apply authenticated_true in Ha as [H1 H2]; rewrite H1, H2; simpl
  | left; split; [by right; left|];
    unfold authenticated in Ha;
    destruct (not_string (WEBHOOK_SECRET w) || not_string (hmac_header req));
    simpl in *; [done | by rewrite Ha] ];
  destruct (JSON_parse w (raw_body req)) as [o|] eqn:Hp;
  [| left; split; [by right; right; left | done] ];
  destruct (truthy_id (event_id o)) eqn:Hid; simpl;
  [| left; split; [right; right; right; by exists o | done] ];
  right; exists o; repeat (split; [done|]);
  run_out; repeat case_match; simpl; by eexists.

Lemma RevA_early w req :
  (stops_before_shop w req ∧ (run (RevA.handler w req)).2 = [])
  ∨ ∃ o, method req = "POST" ∧ ¬ authentication_fails w req
      ∧ JSON_parse w (raw_body req) = Some o ∧ truthy_id (event_id o) = true
      ∧ ∃ rest, (run (RevA.handler w req)).2 = GET_order (event_id o) :: rest.
Proof. unfold stops_before_shop, RevA.handler. early w req. Qed.



Section after_order.

Context (w : world) (req : request) (o : option event).
Hypothesis (Hm : method req = "POST") (Ha : ¬ authentication_fails w req)
  (Hp : JSON_parse w (raw_body req) = Some o)
  (Hid : truthy_id (event_id o) = true).

Lemma RevA_order_fetch_failed :
  ok (orders w (event_id o)) = false →
  run (RevA.handler w req) =
  ({| status := 200; text := "GET order failed" |}, [GET_order (event_id o)]).
Proof. intros Hok. enter Hm Ha Hp Hid. by rewrite Hok. Qed.

Lemma RevB_order_fetch_failed :
  ok (orders w (event_id o)) = false →
  run (RevB.handler w req) =
  ({| status := 200; text := "GET order failed" |}, [GET_order (event_id o)]).
Proof. intros Hok. enter Hm Ha Hp Hid. by rewrite Hok. Qed.

Hypothesis (Hok : ok (orders w (event_id o)) = true)
  (Hd : truthy_id (draftId_of w o) = true).

Lemma RevA_draft_fetch_failed :
  ok (draft_orders w (draftId_of w o)) = false →
  run (RevA.handler w req) =
  ({| status := 200; text := "GET draft failed" |},
   [GET_order (event_id o); GET_draft (draftId_of w o)]).
Proof.
  intros Hdok. unfold draftId_of, fullOrder_of in *. enter Hm Ha Hp Hid.
  rewrite Hok. simpl. rewrite Hd. simpl. by rewrite Hdok.
Qed.

Lemma RevA_after_draft :
  ok (draft_orders w (draftId_of w o)) = true →
  run (RevA.handler w req) =
  if decide (draftAttrs_of w o = []) then
    ({| status := 200; text := "No Zapiet attrs on draft" |},
     [GET_order (event_id o); GET_draft (draftId_of w o)])
  else if decide (merged_of w o = existing_of w o) then
    ({| status := 200; text := "No changes needed" |},
     [GET_order (event_id o); GET_draft (draftId_of w o)])
  else
    ({| status := 200; text := "Done" |},
     [GET_order (event_id o); GET_draft (draftId_of w o);
      PUT_order (event_id o) (merged_of w o)]).
Proof.
  intros Hdok.
  unfold merged_of, existing_of, draftAttrs_of, draftId_of, fullOrder_of in *.
  enter Hm Ha Hp Hid. rewrite Hok. simpl. rewrite Hd. simpl. rewrite Hdok.
  simpl.
  destruct (decide (filter_wanted _ = [])) as [->|Hne]; [done|].
  destruct (filter_wanted _) as [|a F] eqn:HF; [done|]. simpl.
  destruct (decide (_ = _)) as [Heq|Hneq].
  - rewrite Heq.
    assert (differs (order_attributes (json (orders w (event_id o))))
              (order_attributes (json (orders w (event_id o)))) = false) as ->
      by (by apply differs_false).
    done.
  - destruct (differs _ _) eqn:Hdiff; [done|].
    apply differs_false in Hdiff. congruence.
Qed.

End after_order.

Lemma RevA_put_inv w req i m :
  PUT_order i m ∈ (run (RevA.handler w req)).2 →
  ∃ o, writes_when w req o ∧ i = event_id o ∧ m = merged_of w o.
Proof.
  intros Hin.
  destruct (RevA_early w req) as [[_ Hc]|(o & Hm & Ha & Hp & Hid & _)].
  { rewrite Hc in Hin. by apply elem_of_nil in Hin. }
  exists o. unfold writes_when.
  destruct (ok (orders w (event_id o))) eqn:Hok.
  2:{ rewrite (RevA_order_fetch_failed w req o) in Hin by done. simpl in Hin.
      no_put Hin. }
  destruct (truthy_id (draftId_of w o)) eqn:Hd.
  2:{ rewrite (RevA_no_draft_link w req o) in Hin by done. simpl in Hin.
      no_put Hin. }
  destruct (ok (draft_orders w (draftId_of w o))) eqn:Hdok.
  2:{ rewrite (RevA_draft_fetch_failed w req o) in Hin by done. simpl in Hin.
      no_put Hin. }
  rewrite (RevA_after_draft w req o) in Hin by done.
  destruct (decide (draftAttrs_of w o = [])); [simpl in Hin; no_put Hin|].
  destruct (decide (merged_of w o = existing_of w o));
    [simpl in Hin; no_put Hin|].
  simpl in Hin. no_put Hin. injection Hin as -> ->. tauto.
Qed.

Lemma RevB_put_inv w req i m :
  PUT_order i m ∈ (run (RevB.handler w req)).2 →
  ∃ o, writes_when w req o ∧ tagged w o = true
    ∧ i = event_id o ∧ m = merged_of w o.
Proof.
  intros Hin.
  destruct (RevB_within_RevA w req) as [Heq|(o & _ & _ & Hrun & _)].
  2:{ rewrite Hrun in Hin. simpl in Hin. no_put Hin. }
  pose proof Hin as Hin'. rewrite Heq in Hin.
  apply RevA_put_inv in Hin as (o & Hw & -> & ->).
  exists o. split; [done|]. split; [|done].
  destruct (tagged w o) eqn:Ht; [done|]. exfalso.
  destruct Hw as (Hm & Ha & Hp & Hid & Hok & _).
  rewrite (RevB_not_tagged w req o Hm Ha Hp Hid Hok Ht) in Hin'.
  simpl in Hin'. no_put Hin'.
Qed.

Lemma writes_when_after_put w req o :
  writes_when w req o →
  let w' := after_put w (event_id o) (merged_of w o) in
  method req = "POST" ∧ ¬ authentication_fails w' req
  ∧ JSON_parse w' (raw_body req) = Some o ∧ truthy_id (event_id o) = true
  ∧ ok (orders w' (event_id o)) = true ∧ truthy_id (draftId_of w' o) = true
  ∧ ok (draft_orders w' (draftId_of w' o)) = true
  ∧ draftId_of w' o = draftId_of w o
  ∧ draftAttrs_of w' o = draftAttrs_of w o
  ∧ existing_of w' o = merged_of w o
  ∧ merged_of w' o = merged_of w o
  ∧ order_tags (fullOrder_of w' o) = order_tags (fullOrder_of w o).
Proof.
  intros (Hm & Ha & Hp & Hid & Hok & Hd & Hdok & HF & Hne) w'.
  assert (draftId_of w' o = draftId_of w o) as Hsame.
  { unfold draftId_of, fullOrder_of, w'. simpl. rewrite decide_True by done.
    simpl. by destruct (json (orders w (event_id o))). }
  assert (draftAttrs_of w' o = draftAttrs_of w o) as HsameF.
  { unfold draftAttrs_of. by rewrite Hsame. }
  assert (existing_of w' o = merged_of w o) as Hex.
  { unfold existing_of, fullOrder_of, w'. simpl. rewrite decide_True by done.
    simpl. unfold draftId_of, fullOrder_of in Hd.
    destruct (json (orders w (event_id o))); [done|]. simpl in Hd. done. }
  repeat split; try done.
  - unfold w'. simpl. by rewrite decide_True.
  - by rewrite Hsame.
  - by rewrite Hsame.
  - unfold merged_of at 1. rewrite Hex, HsameF. unfold merged_of.
    apply merge_idempotent.
  - unfold fullOrder_of, w'. simpl. rewrite decide_True by done. simpl.
    by destruct (json (orders w (event_id o))).
Qed.

Lemma RevA_redelivery w req i m :
  PUT_order i m ∈ (run (RevA.handler w req)).2 →
  run (RevA.handler (after_put w i m) req) =
  ({| status := 200; text := "No changes needed" |},
   [GET_order i; GET_draft (order_draft_id (json (orders w i)))]).
Proof.
  intros (o & Hw & -> & ->)%RevA_put_inv.
  pose proof Hw as (_ & _ & _ & _ & _ & _ & _ & HF & _).
  apply writes_when_after_put in Hw
    as (Hm & Ha & Hp & Hid & Hok & Hd & Hdok & Hsame & HsameF & Hex & Hmer & _).
  rewrite (RevA_after_draft _ req o) by done.
  rewrite HsameF, decide_False by done.
  rewrite Hmer, Hex, decide_True by done. by rewrite Hsame.
Qed.

Lemma RevB_redelivery w req i m :
  PUT_order i m ∈ (run (RevB.handler w req)).2 →
  run (RevB.handler (after_put w i m) req) =
  ({| status := 200; text := "No changes needed" |},
   [GET_order i; GET_draft (order_draft_id (json (orders w i)))]).
Proof.
  intros Hin. pose proof Hin as (o & Hw & Ht & -> & ->)%RevB_put_inv.
  pose proof Hw as (_ & _ & _ & _ & _ & _ & _ & HF & _).
  apply writes_when_after_put in Hw
    as (Hm & Ha & Hp & Hid & Hok & Hd & Hdok & Hsame & HsameF & Hex & Hmer
        & Htags).
  rewrite (RevB_tagged _ req o) by (try done; unfold tagged in Ht;
    unfold fullOrder_of in Htags; by rewrite Htags).
  rewrite (RevA_after_draft _ req o) by done.
  rewrite HsameF, decide_False by done.
  rewrite Hmer, Hex, decide_True by done. by rewrite Hsame.
Qed.

End more_handler_facts.

(** * More on runs in which a call does not answer *)

Section more_net_facts.

Lemma RevA_net_after_draft w f req o :
  method req = "POST" → body_read_rejects f = false →
  ¬ authentication_fails w req →
  JSON_parse w (raw_body req) = Some o → truthy_id (event_id o) = true →
  order_fetch_rejects f (event_id o) = false →
  ok (orders w (event_id o)) = true →
  order_json_rejects f (event_id o) = false →
  truthy_id (draftId_of w o) = true →
  draft_fetch_rejects f (draftId_of w o) = false →
  ok (draft_orders w (draftId_of w o)) = true →
  draft_json_rejects f (draftId_of w o) = false →
  run_try (RevA_net.handler w f req) =
  if decide (draftAttrs_of w o = []) then
    (resolved {| status := 200; text := "No Zapiet attrs on draft" |},
     [GET_order (event_id o); GET_draft (draftId_of w o)])
  else if decide (merged_of w o = existing_of w o) then
    (resolved {| status := 200; text := "No changes needed" |},
     [GET_order (event_id o); GET_draft (draftId_of w o)])
  else
    (if put_rejects f (event_id o) (merged_of w o) then rejected
     else resolved {| status := 200; text := "Done" |},
     [GET_order (event_id o); GET_draft (draftId_of w o);
      PUT_order (event_id o) (merged_of w o)]).
Proof.
  intros Hm Hb Ha Hp Hid Hof Hok Hoj Hd Hdf Hdok Hdj.
  rewrite (RevA_net_after_reads w f req o) by done.
  destruct (decide (draftAttrs_of w o = [])); [done|].
  destruct (decide (merged_of w o = existing_of w o)) as [Heq|Hneq].
  - rewrite Heq.
    by rewrite (proj2 (differs_false (existing_of w o) (existing_of w o))).
  - destruct (differs _ _) eqn:Hdiff; [done|].
    apply differs_false in Hdiff. congruence.
Qed.

End more_net_facts.

(** * Further properties *)

(** X1.  Reading a name off the merged list.  The last element of a name in
    the merged list is the object built from the last incoming element of
    that name when the incoming list has one, and otherwise the last element
    of that name in the existing list (none if there is none). *)
Theorem lookup_after_merge (E D : list entry) (n : string) :
  last_entry n (mergeNoteAttributes E D) =
  match last_entry n D with
  | Some a => Some (new_object a)
  | None => last_entry n E
  end.
Proof. apply last_entry_merge. Qed.

(** X2.  The merge gives back the existing list exactly when the existing
    list already holds, as the last element of every name the incoming list
    carries, the object built from the last incoming element of that name. *)
Theorem merge_changes_nothing_iff (E D : list entry) :
  mergeNoteAttributes E D = E ↔
  ∀ n a, last_entry n D = Some a → last_entry n E = Some (new_object a).
Proof. apply merge_fixed_iff. Qed.

(** X3.  The merge never shortens the list: it adds one element for each
    incoming element with a new name and nothing else, so the merged list is
    at most [length incoming] longer than the existing one. *)
Theorem merge_length_bounds (E D : list entry) :
  length (mergeNoteAttributes E D) =
    (length E + length (filter (λ a, is_new E a = true) D))%nat
  ∧ (length E ≤ length (mergeNoteAttributes E D))%nat
  ∧ (length (mergeNoteAttributes E D) ≤ length E + length D)%nat.
Proof.
  rewrite merge_length.
  pose proof (length_filter (λ a, is_new E a = true) D). lia.
Qed.

(** X4.  Empty sides.  Merged into an empty list, the incoming elements with
    a name come out as fresh objects, in order, the others are dropped.  An
    incoming list with no named element (the empty list is one) leaves the
    existing list as it is. *)
Theorem merge_empty_sides (E D : list entry) :
  mergeNoteAttributes [] D = new_object <$> filter (λ a, named a = true) D
  ∧ mergeNoteAttributes E [] = E
  ∧ ((∀ a, a ∈ D → named a = false) → mergeNoteAttributes E D = E).
Proof.
  split; [apply merge_nil_l|]. split; [done|]. apply merge_no_named.
Qed.

(** X5.  When no name comes twice in the existing list and none comes twice
    in the incoming list, none comes twice in the merged list. *)
Theorem merge_keeps_names_unique (E D : list entry) :
  NoDup (omap key_of E) → NoDup (omap key_of D) →
  NoDup (omap key_of (mergeNoteAttributes E D)).
Proof.
  intros HE HD. rewrite merge_closed, omap_app, omap_key_overwritten,
    omap_key_appended.
  apply NoDup_app. split; [done|]. split; [|by apply NoDup_omap_filter].
  intros n (e & He & Hk)%list_elem_of_omap
           (a & [Hnew Ha]%list_elem_of_filter & Hka)%list_elem_of_omap.
  apply is_new_spec in Hnew as (m & Hm & Hnone).
  assert (m = n) as -> by congruence.
  by eapply (proj1 (last_pos_None n E) Hnone e).
Qed.

Lemma merge_keeps_names_unique_witness :
  NoDup (omap key_of
           (mergeNoteAttributes
              [Some (Attr (Str "Gift") (Str "yes"))]
              [Some (Attr (Str "Delivery-Date") (Str "2024-05-01"));
               Some (Attr (Str "Gift") (Str "no"))])).
Proof.
  apply merge_keeps_names_unique;
    refine (bool_decide_unpack _ _); vm_compute; exact I.
Defined.

(** X6.  Merging two batches one after the other gives the same list as
    merging them at once, provided no name that the first batch adds comes
    again in the second. *)
Theorem merge_in_two_batches (E D1 D2 : list entry) :
  (∀ a b, a ∈ D1 → b ∈ D2 → is_new E a = true → key_of a ≠ key_of b) →
  mergeNoteAttributes E (D1 ++ D2) =
  mergeNoteAttributes (mergeNoteAttributes E D1) D2.
Proof.
  intros Hapart. unfold mergeNoteAttributes at 1 2. cbv zeta.
  rewrite foldl_app.
  change (foldl (upsert (forEach_set 0 E ∅)) E D1)
    with (mergeNoteAttributes E D1).
  apply foldl_ext_in. intros out b Hb. unfold upsert.
  destruct (key_of b) as [n|] eqn:Hn; [|done].
  rewrite !index_lookup, merge_closed, last_pos_app.
  rewrite (last_pos_keys n _ E (overwritten_keys D1 E)).
  destruct (last_pos n (appended E D1)) as [k|] eqn:Hk; [|done].
  exfalso. apply last_pos_Some in Hk as [(x & Hx & Hkx) _].
  apply list_elem_of_lookup_2, elem_of_appended in Hx as (a & Ha & Hnew & ->).
  apply (Hapart a b Ha Hb Hnew).
  apply is_new_spec in Hnew as (m & Hm & _).
  rewrite (key_of_new_object a m Hm) in Hkx. congruence.
Qed.

Lemma merge_in_two_batches_witness :
  mergeNoteAttributes
    [Some (Attr (Str "Gift") (Str "yes"))]
    ([Some (Attr (Str "Delivery-Date") (Str "2024-05-01"))]
     ++ [Some (Attr (Str "Checkout-Method") (Str "pickup"))])
  = mergeNoteAttributes
      (mergeNoteAttributes
         [Some (Attr (Str "Gift") (Str "yes"))]
         [Some (Attr (Str "Delivery-Date") (Str "2024-05-01"))])
      [Some (Attr (Str "Checkout-Method") (Str "pickup"))].
Proof.
  apply merge_in_two_batches.
  intros a b Ha%list_elem_of_singleton Hb%list_elem_of_singleton _.
  rewrite Ha, Hb. vm_compute. discriminate.
Defined.

(** X7.  [differs] is exact on attribute lists: it reports no difference
    exactly when the two lists are the same list (same length, and at every
    place the same null or the same name and value, absent, null or string),
    and a difference exactly when they are not.  The elements are the
    objects of the model: the properties [name] and [value], in that order,
    and no other. *)
Theorem differs_is_exact (a1 a2 : list entry) :
  (differs a1 a2 = false ↔ a1 = a2) ∧ (differs a1 a2 = true ↔ a1 ≠ a2).
Proof.
  pose proof (differs_false a1 a2) as H. split; [done|].
  destruct (differs a1 a2); split; try done.
  - intros _ Heq. apply H in Heq. done.
  - intros Hne. exfalso. apply Hne, H. done.
Qed.

(** X8.  The promise of [readRawBody] resolves exactly when the stream emits
    an [end] before any [error], and then with the chunks received before it,
    joined in order; it rejects exactly when an [error] comes first.  Joining
    does not see chunk boundaries. *)
Theorem readRawBody_settles (events : list stream_event) :
  (∀ raw, readRawBody events = resolved raw ↔
     ∃ cs rest, events = ((on_data <$> cs) ++ on_end :: rest)%list
       ∧ raw = Buffer_concat cs)
  ∧ (readRawBody events = rejected ↔
     ∃ cs rest, events = ((on_data <$> cs) ++ on_error :: rest)%list)
  ∧ (∀ cs1 cs2,
       Buffer_concat (cs1 ++ cs2) = Buffer_concat cs1 ++ Buffer_concat cs2).
Proof.
  split; [|split].
  - intros raw. apply readRawBody_from_resolved.
  - apply readRawBody_from_rejected.
  - apply Buffer_concat_app.
Qed.

(** X9.  The tag test of the second revision, on the bytes of the tag
    string, accepts it exactly when some part of it, anywhere in the string,
    is the marker up to ASCII case: byte for byte, the part has the byte of
    the marker or the capital letter 32 below it.  No other byte is taken
    for a letter of the marker, and tag boundaries are not looked at. *)
Theorem tag_test_is_caseless_substring (t : string) :
  (includes (toLowerCase t) "samita-wholesale" = true ↔
   ∃ pre m post, t = pre ++ m ++ post
     ∧ same_up_to_case m "samita-wholesale" = true)
  ∧ (∀ m, same_up_to_case m "samita-wholesale" = true ↔
       String.length m = 16
       ∧ ∀ i c d, String.get i m = Some c →
           String.get i "samita-wholesale" = Some d →
           c = d
           ∨ ((65 ≤ N_of_ascii c)%N ∧ (N_of_ascii c ≤ 90)%N
              ∧ N_of_ascii d = (N_of_ascii c + 32)%N)).
Proof.
  split; [by apply includes_lower_spec|].
  intros m. by apply same_up_to_case_spec.
Qed.

(** X10.  The calls of a run, of either revision, are a beginning of: the
    order fetch, the draft fetch for the draft that order links to, the
    write of the merged list to the same order.  There are never more than
    two reads and one write, and never a write without both reads. *)
Theorem calls_are_reads_then_write (w : world) (req : request) :
  reads_then_write w req (run (RevA.handler w req)).2
  ∧ reads_then_write w req (run (RevB.handler w req)).2.
Proof. split; [apply RevA_calls_shape | apply RevB_calls_shape]. Qed.


(** X12.  A fetch the shop refuses is acknowledged.  When the order fetch is
    not ok, both revisions reply 200 after that one call.  When the draft
    fetch is not ok, the reply is 200 after the two reads and nothing is
    written (in the second revision, for a tagged order). *)
Theorem refused_fetch_is_acknowledged
    (w : world) (req : request) (o : option event) :
  method req = "POST" → ¬ authentication_fails w req →
  JSON_parse w (raw_body req) = Some o → truthy_id (event_id o) = true →
  (ok (orders w (event_id o)) = false →
   run (RevA.handler w req) =
     ({| status := 200; text := "GET order failed" |},
      [GET_order (event_id o)])
   ∧ run (RevB.handler w req) =
     ({| status := 200; text := "GET order failed" |},
      [GET_order (event_id o)]))
  ∧ (ok (orders w (event_id o)) = true →
     truthy_id (draftId_of w o) = true →
     ok (draft_orders w (draftId_of w o)) = false →
     run (RevA.handler w req) =
       ({| status := 200; text := "GET draft failed" |},
        [GET_order (event_id o); GET_draft (draftId_of w o)])
     ∧ (tagged w o = true →
        run (RevB.handler w req) =
          ({| status := 200; text := "GET draft failed" |},
           [GET_order (event_id o); GET_draft (draftId_of w o)]))).
Proof.
  intros Hm Ha Hp Hid. split.
  - intros Hok. split.
    + by apply RevA_order_fetch_failed.
    + by apply RevB_order_fetch_failed.
  - intros Hok Hd Hdok. split.
    + by apply RevA_draft_fetch_failed.
    + intros Ht. rewrite (RevB_tagged w req o) by done.
      by apply RevA_draft_fetch_failed.
Qed.

Lemma refused_fetch_is_acknowledged_witness :
  run (RevA.handler order_outage_world sample_request) =
    ({| status := 200; text := "GET order failed" |}, [GET_order (IdNum 1)])
  ∧ run (RevA.handler draft_outage_world sample_request) =
    ({| status := 200; text := "GET draft failed" |},
     [GET_order (IdNum 1); GET_draft (IdNum 7)]).
Proof.
  split.
  - apply (proj1 (refused_fetch_is_acknowledged
                    order_outage_world sample_request
                    (Some {| id := IdNum 1 |}) eq_refl
                    (authenticated_not_fails
                       order_outage_world sample_request eq_refl)
                    eq_refl eq_refl)).
    reflexivity.
  - apply (proj1 (proj2 (refused_fetch_is_acknowledged
                    draft_outage_world sample_request
                    (Some {| id := IdNum 1 |}) eq_refl
                    (authenticated_not_fails
                       draft_outage_world sample_request eq_refl)
                    eq_refl eq_refl) eq_refl eq_refl eq_refl)).
Defined.

(** X13.  Once the body was read and both fetches answered ok with a
    document, the run is decided by the lists and by the write: with no
    allow-listed attribute on the draft it replies 200 and stops; when the
    merged list is the existing list it replies 200 and stops; otherwise it
    issues the write of the merged list to the order, and replies 200 Done
    when the write answers, ok or not, but sends no reply when the write
    rejects.  The second revision does the same for a tagged order. *)
Theorem outcome_after_both_fetches
    (w : world) (f : faults) (req : request) (o : option event) :
  method req = "POST" → body_read_rejects f = false →
  ¬ authentication_fails w req →
  JSON_parse w (raw_body req) = Some o → truthy_id (event_id o) = true →
  order_fetch_rejects f (event_id o) = false →
  ok (orders w (event_id o)) = true →
  order_json_rejects f (event_id o) = false →
  truthy_id (draftId_of w o) = true →
  draft_fetch_rejects f (draftId_of w o) = false →
  ok (draft_orders w (draftId_of w o)) = true →
  draft_json_rejects f (draftId_of w o) = false →
  run_try (RevA_net.handler w f req) =
    (if decide (draftAttrs_of w o = []) then
       (resolved {| status := 200; text := "No Zapiet attrs on draft" |},
        [GET_order (event_id o); GET_draft (draftId_of w o)])
     else if decide (merged_of w o = existing_of w o) then
       (resolved {| status := 200; text := "No changes needed" |},
        [GET_order (event_id o); GET_draft (draftId_of w o)])
     else
       (if put_rejects f (event_id o) (merged_of w o) then rejected
        else resolved {| status := 200; text := "Done" |},
        [GET_order (event_id o); GET_draft (draftId_of w o);
         PUT_order (event_id o) (merged_of w o)]))
  ∧ (tagged w o = true →
     run_try (RevB_net.handler w f req) = run_try (RevA_net.handler w f req))
  ∧ (∀ put, run_try (RevA_net.handler (with_put w put) f req)
            = run_try (RevA_net.handler w f req)).
Proof.
  intros Hm Hb Ha Hp Hid Hof Hok Hoj Hd Hdf Hdok Hdj. split; [|split].
  - by apply RevA_net_after_draft.
  - intros Ht. by apply (RevB_net_tagged w f req o).
  - intros put. apply RevA_net_ignores_put.
Qed.

Lemma outcome_after_both_fetches_witness :
  run_try (RevA_net.handler (sample_world wholesale_order) no_faults
             sample_request) =
  (resolved {| status := 200; text := "Done" |},
   [GET_order (IdNum 1); GET_draft (IdNum 7);
    PUT_order (IdNum 1)
      [Some (Attr (Str "Gift") (Str "yes"));
       Some (Attr (Str "Delivery-Date") (Str "2024-05-01"))]])
  ∧ run_try (RevA_net.handler (sample_world wholesale_order) write_unreachable
               sample_request) =
    (rejected,
     [GET_order (IdNum 1); GET_draft (IdNum 7);
      PUT_order (IdNum 1)
        [Some (Attr (Str "Gift") (Str "yes"));
         Some (Attr (Str "Delivery-Date") (Str "2024-05-01"))]]).
Proof.
  split.
  - rewrite (proj1 (outcome_after_both_fetches
                      (sample_world wholesale_order) no_faults sample_request
                      (Some {| id := IdNum 1 |}) eq_refl eq_refl
                      (authenticated_not_fails
                         (sample_world wholesale_order) sample_request eq_refl)
                      eq_refl eq_refl eq_refl eq_refl eq_refl eq_refl eq_refl
                      eq_refl eq_refl)).
    vm_compute. reflexivity.
  - rewrite (proj1 (outcome_after_both_fetches
                      (sample_world wholesale_order) write_unreachable
                      sample_request
                      (Some {| id := IdNum 1 |}) eq_refl eq_refl
                      (authenticated_not_fails
                         (sample_world wholesale_order) sample_request eq_refl)
                      eq_refl eq_refl eq_refl eq_refl eq_refl eq_refl eq_refl
                      eq_refl eq_refl)).
    vm_compute. reflexivity.
Defined.

(** X14.  A write tells what happened before it.  If a run of either
    revision writes list [m] to order [i], then the request was an
    authenticated POST for order [i], both fetches succeeded, the draft
    carried an allow-listed attribute, [m] is the merge of the two fetched
    lists and is not the list the order had; and under every name of the
    filtered draft, [m] reads the draft's last value for it. *)
Theorem write_means_change
    (w : world) (req : request) (i : ident) (m : list entry) :
  PUT_order i m ∈ (run (RevA.handler w req)).2
  ∨ PUT_order i m ∈ (run (RevB.handler w req)).2 →
  ∃ o, writes_when w req o ∧ i = event_id o ∧ m = merged_of w o
    ∧ m ≠ existing_of w o
    ∧ ∀ n a, last_entry n (draftAttrs_of w o) = Some a →
        last_entry n m = Some (new_object a).
Proof.
  intros Hin.
  assert (∃ o, writes_when w req o ∧ i = event_id o ∧ m = merged_of w o)
    as (o & Hw & -> & ->).
  { destruct Hin as [Hin|Hin].
    - by apply RevA_put_inv in Hin.
    - apply RevB_put_inv in Hin as (o & ? & _ & ? & ?). by exists o. }
  exists o. split; [done|]. split; [done|]. split; [done|]. split.
  - by destruct Hw as (_ & _ & _ & _ & _ & _ & _ & _ & Hne).
  - intros n a Ha. unfold merged_of. by rewrite last_entry_merge, Ha.
Qed.

Lemma write_means_change_witness :
  ∃ o, writes_when (sample_world wholesale_order) sample_request o
    ∧ IdNum 1 = event_id o
    ∧ [Some (Attr (Str "Gift") (Str "yes"));
       Some (Attr (Str "Delivery-Date") (Str "2024-05-01"))]
      = merged_of (sample_world wholesale_order) o
    ∧ [Some (Attr (Str "Gift") (Str "yes"));
       Some (Attr (Str "Delivery-Date") (Str "2024-05-01"))]
      ≠ existing_of (sample_world wholesale_order) o
    ∧ ∀ n a,
        last_entry n (draftAttrs_of (sample_world wholesale_order) o) = Some a →
        last_entry n
          [Some (Attr (Str "Gift") (Str "yes"));
           Some (Attr (Str "Delivery-Date") (Str "2024-05-01"))]
        = Some (new_object a).
Proof.
  apply (write_means_change (sample_world wholesale_order) sample_request).
  right. rewrite sample_run_writes_the_merge. simpl.
  rewrite !elem_of_cons. tauto.
Defined.

(** X15.  Redelivery writes nothing.  If a run wrote [m] to order [i] and
    the shop stored it, the same request delivered again fetches the order
    and the draft, finds nothing to change, and stops with 200; in both
    revisions. *)
Theorem redelivery_after_write_is_noop
    (w : world) (req : request) (i : ident) (m : list entry) :
  (PUT_order i m ∈ (run (RevA.handler w req)).2 →
   run (RevA.handler (after_put w i m) req) =
   ({| status := 200; text := "No changes needed" |},
    [GET_order i; GET_draft (order_draft_id (json (orders w i)))]))
  ∧ (PUT_order i m ∈ (run (RevB.handler w req)).2 →
     run (RevB.handler (after_put w i m) req) =
     ({| status := 200; text := "No changes needed" |},
      [GET_order i; GET_draft (order_draft_id (json (orders w i)))])).
Proof. split; [apply RevA_redelivery | apply RevB_redelivery]. Qed.

Lemma redelivery_after_write_is_noop_witness :
  run (RevB.handler
         (after_put (sample_world wholesale_order) (IdNum 1)
            [Some (Attr (Str "Gift") (Str "yes"));
             Some (Attr (Str "Delivery-Date") (Str "2024-05-01"))])
         sample_request) =
  ({| status := 200; text := "No changes needed" |},
   [GET_order (IdNum 1); GET_draft (IdNum 7)]).
Proof.
  apply (proj2 (redelivery_after_write_is_noop
                  (sample_world wholesale_order) sample_request (IdNum 1)
                  [Some (Attr (Str "Gift") (Str "yes"));
                   Some (Attr (Str "Delivery-Date") (Str "2024-05-01"))])).
  rewrite sample_run_writes_the_merge. simpl.
  rewrite !elem_of_cons. tauto.
Defined.

(** X16.  The second revision does nothing the first does not: on every
    request its run is the run of the first revision, or it stops after the
    order fetch because the order is not tagged, where the first revision
    goes on from that same fetch. *)
Theorem second_revision_is_a_restriction (w : world) (req : request) :
  (run (RevB.handler w req) = run (RevA.handler w req)
   ∨ ∃ o, JSON_parse w (raw_body req) = Some o ∧ tagged w o = false
       ∧ run (RevB.handler w req) =
           ({| status := 200; text := "Not a Samita order" |},
            [GET_order (event_id o)]))
  ∧ (run (RevB.handler w req)).2 `prefix_of` (run (RevA.handler w req)).2.
Proof.
  destruct (RevB_within_RevA w req) as [Heq|(o & Hp & Ht & Hrun & rest & HA)].
  - split; [by left|]. by rewrite Heq.
  - split; [right; by exists o|].
    rewrite Hrun, HA. simpl. by exists rest.
Qed.

Section carry_over_facts.

Lemma wanted_has_keyed (a : entry) (n : string) :
  key_of a = Some n → wanted_has (opt_name a) = bool_decide (n ∈ wanted).
Proof. intros Hk. by rewrite (opt_name_keyed a n Hk). Qed.

Lemma last_entry_filter_wanted (D : list entry) (n : string) :
  last_entry n (filter_wanted D) =
  if decide (n ∈ wanted) then last_entry n D else None.
Proof.
  unfold filter_wanted. induction D as [|a D IH].
  - by case_decide.
  - destruct (wanted_has (opt_name a)) eqn:Hw.
    + rewrite filter_cons_True by done. simpl. rewrite IH.
      case_decide as Hn; [done|]. case_decide as Hk; [|done].
      rewrite (wanted_has_keyed a n Hk) in Hw.
      by apply bool_decide_eq_true in Hw.
    + rewrite filter_cons_False by congruence. rewrite IH. simpl.
      case_decide as Hn; [|done].
      destruct (last_entry n D); [done|]. case_decide as Hk; [|done].
      rewrite (wanted_has_keyed a n Hk) in Hw.
      by apply bool_decide_eq_false in Hw.
Qed.

End carry_over_facts.

(** X17.  The carry-over, name by name.  In the list the handler merges,
    an allow-listed name reads the draft's last value for it when the draft
    carries the name and the order's own value otherwise; every other name
    reads what the order had, whatever the draft holds. *)
Theorem carry_over_by_name (E D0 : list entry) (n : string) :
  last_entry n (mergeNoteAttributes E (filter_wanted D0)) =
  if decide (n ∈ wanted) then
    match last_entry n D0 with
    | Some a => Some (new_object a)
    | None => last_entry n E
    end
  else last_entry n E.
Proof.
  rewrite last_entry_merge, last_entry_filter_wanted. by case_decide.
Qed.
